(** * Identity resolution of src/server/main.py

    A shallow embedding of [lookup_performer] and of the [/search] handler
    [confirm], with the Python built-ins they rely on, followed by the
    properties of the aggregation, ranking and error behaviour.

    Conventions of the embedding.
    - A Python [float] is the rational it stands for, kept in lowest terms
      ([Q] under [Qred]). Every float operation rounds its exact result to
      the nearest binary64 number, ties to even, with the subnormal range
      ([Py.binary64]); NaN, infinities and overflow are outside the model.
    - A Python [str] is a [string]; the separator ["="] is one ASCII
      character, so splitting bytes and splitting code points agree.
    - A Python [dict] is an association list in insertion order with
      pairwise distinct keys: assigning to an existing key keeps its
      position, assigning to a new key appends.
    - Exceptions and the two effects of a request (drawing a uuid, querying
      the index) are threaded through a small state and error monad. The
      calls to [time.time] and [print] are not modelled. *)

From Stdlib Require Import Ascii String QArith Qround Qabs Sorting.Sorted Lqa.
From stdpp Require Import base list strings gmap sorting.

Local Open Scope string_scope.
Local Open Scope Q_scope.
Local Open Scope list_scope.

(** ** Exceptions and results *)

Inductive exn : Type :=
  | HTTPException (status_code : nat) (detail : string)
  | IndexError (msg : string)
  | KeyError (key : string).

Inductive result (A : Type) : Type :=
  | Ok (a : A)
  | Raise (e : exn).
Arguments Ok {A} a.
Arguments Raise {A} e.

Definition result_bind {A B : Type} (m : result A) (k : A → result B) : result B :=
  match m with
  | Ok a => k a
  | Raise e => Raise e
  end.

Notation "'do' x <- m ; k" := (result_bind m (fun x => k))
  (at level 10, x name, m at level 100, k at level 200).

(** ** Python built-ins *)

Module Py.

(** [s.split(sep)] for a one-character separator. The list is never empty. *)
Fixpoint str_split (sep : ascii) (s : string) : list string :=
  match s with
  | EmptyString => [EmptyString]
  | String c s' =>
      if Ascii.eqb c sep then EmptyString :: str_split sep s'
      else match str_split sep s' with
           | [] => [String c EmptyString]
           | w :: ws => String c w :: ws
           end
  end.

(** [l[i]] for a list and a non-negative index. *)
Definition list_getitem {A : Type} (l : list A) (i : nat) : result A :=
  match l !! i with
  | Some x => Ok x
  | None => Raise (IndexError "list index out of range")
  end.

(** Rounding of a rational to the nearest integer, ties to even. *)
Definition round_half_even (q : Q) : Z :=
  let fl := Qfloor q in
  match Qcompare (q - inject_Z fl) (1 # 2) with
  | Lt => fl
  | Gt => (fl + 1)%Z
  | Eq => if Z.even fl then fl else (fl + 1)%Z
  end.

(** Rounding of a non-negative rational to 53 significant bits, ties to
    even, in steps of one: below [2 ^ 53] every integer is kept, above it
    the step is the power of two that leaves 53 bits. *)
Definition round_to_53 (s : Q) : Z :=
  let e := Z.max 0 (Z.log2 (Qfloor s) - 52) in
  (round_half_even (s / inject_Z (2 ^ e)) * 2 ^ e)%Z.

(** The smallest positive binary64 number is [1 / subnormal_scale]. *)
Definition subnormal_scale : Z := 2 ^ 1074.

(** The binary64 number nearest to a rational, ties to even: what a float
    operation returns for the exact result [q]. *)
Definition binary64 (q : Q) : Q :=
  let r := inject_Z (round_to_53 (Qabs q * inject_Z subnormal_scale))
           / inject_Z subnormal_scale in
  Qred (if Qle_bool 0 q then r else - r).

(** [x - y] on floats. *)
Definition float_sub (x y : Q) : Q := binary64 (x - y).

(** [round(x, 2)]: the decimal rounding of the exact value of [x], ties to
    even, converted back to the nearest float. *)
Definition round2 (x : Q) : Q :=
  binary64 (Qmake (round_half_even (x * 100)) 100).

(** Insertion-ordered dictionaries with string keys. *)
Definition dict (V : Type) : Type := list (string * V).

Fixpoint dict_get {V : Type} (k : string) (d : dict V) : option V :=
  match d with
  | [] => None
  | (k', v) :: d' => if String.eqb k k' then Some v else dict_get k d'
  end.

(** [k in d] *)
Definition dict_contains {V : Type} (k : string) (d : dict V) : bool :=
  match dict_get k d with
  | Some _ => true
  | None => false
  end.

(** [d[k]] *)
Definition dict_getitem {V : Type} (k : string) (d : dict V) : result V :=
  match dict_get k d with
  | Some v => Ok v
  | None => Raise (KeyError k)
  end.

(** [d[k] = v] *)
Fixpoint dict_setitem {V : Type} (k : string) (v : V) (d : dict V) : dict V :=
  match d with
  | [] => [(k, v)]
  | (k', v') :: d' =>
      if String.eqb k k' then (k, v) :: d'
      else (k', v') :: dict_setitem k v d'
  end.

(** [d.values()] *)
Definition dict_values {V : Type} (d : dict V) : list V := map snd d.

Definition dict_keys {V : Type} (d : dict V) : list string := map fst d.

(** [sorted(l, key=key)]: the stable sort by a numeric key. Every stable
    sort returns the same list; this one inserts from the right. *)
Fixpoint insert_by {A : Type} (key : A → Q) (x : A) (l : list A) : list A :=
  match l with
  | [] => [x]
  | y :: l' =>
      if Qle_bool (key x) (key y) then x :: y :: l'
      else y :: insert_by key x l'
  end.

Definition sorted {A : Type} (key : A → Q) (l : list A) : list A :=
  foldr (insert_by key) [] l.

(** [s.endswith(suffix)]: some tail of [s] is [suffix]. *)
Fixpoint str_endswith (s suffix : string) : bool :=
  if String.eqb s suffix then true
  else match s with
       | EmptyString => false
       | String _ s' => str_endswith s' suffix
       end.

(** [s.endswith(suffixes)] for a tuple of suffixes. *)
Definition str_endswith_any (s : string) (suffixes : list string) : bool :=
  existsb (str_endswith s) suffixes.

End Py.

(** ** Data model *)

(** The dictionary stored in [persons[id]]. The keys ["name"] and ["image"]
    exist only when the identity has metadata. *)
Record person : Type := mk_person {
  p_id : string;
  p_distance : Q;
  p_hits : nat;
  p_name : option string;
  p_image : option string
}.

(** A value of [PERFORMER_DB]. *)
Record metadata : Type := mk_metadata {
  md_name : string;
  md_image : string
}.

(** The dictionary returned by [lookup_performer]. *)
Record search_result : Type := mk_search_result {
  r_id : string;
  r_performers : list person
}.

(** The pydantic model [Performer]: unknown keys are dropped, absent
    [name] and [image] take the declared default. *)
Record Performer : Type := mk_Performer {
  perf_id : string;
  perf_name : string;
  perf_image : string;
  perf_distance : Q
}.

Definition Performer_validate (c : person) : Performer :=
  {| perf_id := p_id c;
     perf_name := default "N/A" (p_name c);
     perf_image := default "N/A" (p_image c);
     perf_distance := p_distance c |}.

(** The pydantic model [PerformerSearch]. *)
Record PerformerSearch : Type := mk_PerformerSearch {
  ps_id : string;
  ps_performers : list Performer
}.

Definition PerformerSearch_validate (r : search_result) : PerformerSearch :=
  {| ps_id := r_id r;
     ps_performers := map Performer_validate (r_performers r) |}.

(** The uploaded file, as the handler of [/] reads it. *)
Record UploadFile : Type := mk_UploadFile {
  filename : string;
  file_content : string
}.

(** ** The world of a request *)

(** [uuid_source] is the stream of tokens [uuid.uuid4] hands out and
    [uuid_drawn] how many were taken; [index_queries] logs every vector
    submitted to the index, most recent first. *)
Record world : Type := mk_world {
  uuid_source : nat → string;
  uuid_drawn : nat;
  index_queries : list (list Q)
}.

Definition M (A : Type) : Type := world → result A * world.

Definition ret {A : Type} (a : A) : M A := fun w => (Ok a, w).

Definition raise {A : Type} (e : exn) : M A := fun w => (Raise e, w).

Definition bind {A B : Type} (m : M A) (k : A → M B) : M B :=
  fun w =>
    match m w with
    | (Ok a, w') => k a w'
    | (Raise e, w') => (Raise e, w')
    end.

Definition lift {A : Type} (r : result A) : M A := fun w => (r, w).

Notation "'let*' x := m 'in' k" := (bind m (fun x => k))
  (at level 10, x name, m at level 100, k at level 200).

(** [str(uuid.uuid4())] *)
Definition uuid4 : M string :=
  fun w =>
    (Ok (uuid_source w (uuid_drawn w)),
     {| uuid_source := uuid_source w;
        uuid_drawn := S (uuid_drawn w);
        index_queries := index_queries w |}).

(** An Annoy index of dimension [f]; [nns v n search_k] is its answer, the
    item numbers and their distances, nearest first. *)
Record AnnoyIndex : Type := mk_AnnoyIndex {
  f : nat;
  nns : list Q → Z → Z → list nat * list Q
}.

(** [index.get_nns_by_vector(v, n, search_k=search_k, include_distances=True)].
    Annoy refuses a vector of the wrong length. *)
Definition get_nns_by_vector (index : AnnoyIndex) (v : list Q) (n search_k : Z)
    : M (list nat * list Q) :=
  fun w =>
    let w' := {| uuid_source := uuid_source w;
                 uuid_drawn := uuid_drawn w;
                 index_queries := v :: index_queries w |} in
    if Nat.eqb (length v) (f index) then (Ok (nns index v n search_k), w')
    else (Raise (IndexError "Vector has wrong length"), w').

(** ** Specification vocabulary *)

(** The stored distance after one more hit of the identity. *)
Definition decrement (x : Q) : Q := Py.float_sub x (1 # 2).

(** The binary exponent [Py.round_to_53] rounds at. *)
Definition expo (s : Q) : Z := Z.max 0 (Z.log2 (Qfloor s) - 52).

(** The binary64 number nearest to a non-negative rational. *)
Definition magnitude (q : Q) : Q :=
  inject_Z (Py.round_to_53 (q * inject_Z Py.subnormal_scale))
  / inject_Z Py.subnormal_scale.

(** The world after a request that drew its id and queried the index. *)
Definition after_query (vector : list Q) (w : world) : world :=
  {| uuid_source := uuid_source w;
     uuid_drawn := S (uuid_drawn w);
     index_queries := vector :: index_queries w |}.

(** How FastAPI answers a request whose handler raised: an [HTTPException]
    carries its own status, any other exception is a 500. *)
Definition response_status (e : exn) : nat :=
  match e with
  | HTTPException status_code _ => status_code
  | IndexError _ | KeyError _ => 500
  end.

(** The substring of [s] before the first occurrence of [sep]; the whole of
    [s] when [sep] does not occur. *)
Fixpoint before_first (sep : ascii) (s : string) : string :=
  match s with
  | EmptyString => EmptyString
  | String c s' =>
      if Ascii.eqb c sep then EmptyString else String c (before_first sep s')
  end.

Fixpoint occurs (sep : ascii) (s : string) : bool :=
  match s with
  | EmptyString => false
  | String c s' => Ascii.eqb c sep || occurs sep s'
  end.

(** The distinct elements of a list, in the order of their first occurrence. *)
Fixpoint first_occ (l : list string) : list string :=
  match l with
  | [] => []
  | x :: l' => x :: List.filter (fun y => negb (String.eqb y x)) (first_occ l')
  end.

Definition le_by {A : Type} (key : A → Q) (a b : A) : Prop := key a <= key b.

Definition by_distance : person → person → Prop := le_by p_distance.

Definition at_distance (q : Q) (c : person) : bool := Qeq_bool (p_distance c) q.

(** [s] keeps the candidates of equal distance in the order they have in [l]. *)
Definition stable_wrt (l s : list person) : Prop :=
  ∀ q, List.filter (at_distance q) s = List.filter (at_distance q) l.

(** ** A small gallery to run the program on *)

(** Four slots: two photos of X, one of Y, one of Z. Only X has metadata. *)
Definition demo_index : list string := ["X=a.jpg"; "Y=b.jpg"; "X=c.jpg"; "Z"].

Definition demo_db : gmap string metadata :=
  {[ "X" := {| md_name := "Xena"; md_image := "http://img/x" |} ]}.

Definition demo_vector : list Q := repeat 0 512.

Definition demo_world : world :=
  {| uuid_source := fun n => String (ascii_of_nat (65 + n)) EmptyString;
     uuid_drawn := 0;
     index_queries := [] |}.

(** An index that answers slots 0, 1, 2 at distances 1.0, 1.0, 1.2. *)
Definition demo_face_db (v : list Q) (n search_k : Z) : list nat * list Q :=
  ([0; 1; 2]%nat, [1; 1; 12 # 10]).

(** An index that answers both photos of X, at distances 0.3 and 0.4. *)
Definition near_face_db (v : list Q) (n search_k : Z) : list nat * list Q :=
  ([0; 2]%nat, [3 # 10; 4 # 10]).




(** An index that finds nothing. *)
Definition silent_face_db (v : list Q) (n search_k : Z) : list nat * list Q :=
  ([], []).

(** A uuid source that gives one token for ever. *)
Definition stuck_world : world :=
  {| uuid_source := fun _ => "same"; uuid_drawn := 0; index_queries := [] |}.

(** An index that answers Y at 0.2, then the two photos of X at 0.7 and
    0.9, as floats. *)
Definition close_face_db (v : list Q) (n search_k : Z) : list nat * list Q :=
  ([1; 0; 2]%nat,
   [Py.binary64 (2 # 10); Py.binary64 (7 # 10); Py.binary64 (9 # 10)]).

(** An index that answers a slot the slot map does not have. *)
Definition stray_face_db (v : list Q) (n search_k : Z) : list nat * list Q :=
  ([0; 7; 1]%nat, [1; 1; 12 # 10]).

Definition demo_result : search_result :=
  {| r_id := "A";
     r_performers :=
       [ {| p_id := "X"; p_distance := 1 # 2; p_hits := 2;
            p_name := Some "Xena"; p_image := Some "http://img/x" |};
         {| p_id := "Y"; p_distance := 1; p_hits := 1;
            p_name := None; p_image := None |} ] |}.

(** The hits of [demo_face_db] and the candidates they make. *)
Definition demo_hits : list (nat * Q) :=
  [(0%nat, 1); (1%nat, 1); (2%nat, 12 # 10)].

Definition demo_x_once : person :=
  {| p_id := "X"; p_distance := 1; p_hits := 1;
     p_name := Some "Xena"; p_image := Some "http://img/x" |}.

Definition demo_x : person :=
  {| p_id := "X"; p_distance := 1 # 2; p_hits := 2;
     p_name := Some "Xena"; p_image := Some "http://img/x" |}.

Definition demo_y : person :=
  {| p_id := "Y"; p_distance := 1; p_hits := 1;
     p_name := None; p_image := None |}.

Definition demo_persons : Py.dict person := [("X", demo_x); ("Y", demo_y)].

(** Two hits of different identities, nearest first. *)
Definition apart_hits : list (nat * Q) := [(1%nat, 1); (3%nat, 12 # 10)].

Definition apart_persons : Py.dict person :=
  [("Y", demo_y);
   ("Z", {| p_id := "Z"; p_distance := Py.binary64 (6 # 5); p_hits := 1;
            p_name := None; p_image := None |})].

(** Stand-ins for the collaborators of the upload handler: an image is its
    bytes, the empty file does not decode, no face is found in "blank" and
    every face has the embedding [demo_vector]. *)
Definition toy_open (content : string) : option string :=
  if String.eqb content "" then None else Some content.

Definition toy_mode (image : string) : string := "L".

Definition toy_convert (image mode : string) : string := image.

Definition toy_array (image : string) : string := image.

Definition toy_detect (array : string) : option string :=
  if String.eqb array "blank" then None else Some array.

Definition toy_normalize (array : string) : option string := Some array.

Definition toy_predict (array : string) : list Q := demo_vector.

(** What the handler of uploads answers on the small gallery. *)
Definition demo_response : PerformerSearch :=
  {| ps_id := "A";
     ps_performers :=
       [ {| perf_id := "X"; perf_name := "Xena"; perf_image := "http://img/x";
            perf_distance := 1 # 2 |};
         {| perf_id := "Y"; perf_name := "N/A"; perf_image := "N/A";
            perf_distance := 1 |} ] |}.

(** Fifteen identities, one slot each, answered farthest first. *)
Definition wide_index : list string :=
  ["a"; "b"; "c"; "d"; "e"; "f"; "g"; "h"; "i"; "j"; "k"; "l"; "m"; "n"; "o"].

Definition wide_face_db (v : list Q) (n search_k : Z) : list nat * list Q :=
  (seq 0 15, map (fun i => inject_Z (Z.of_nat (15 - i))) (seq 0 15)).

(** ** The program *)

Definition vector_size : nat := 512.

Section Server.

(** What the process loaded at start-up: the answers of [face.db], the list
    of [face.json] and the dictionary of [performers.json]. *)
Variable face_db : list Q → Z → Z → list nat * list Q.
Variable ANNOY_INDEX : list string.
Variable PERFORMER_DB : gmap string metadata.

Definition index : AnnoyIndex := {| f := vector_size; nns := face_db |}.

(** [ANNOY_INDEX[p].split("=")[0]] *)
Definition identity_of (p : nat) : result string :=
  do entry <- Py.list_getitem ANNOY_INDEX p;
  Py.list_getitem (Py.str_split "=" entry) 0.

(** [persons[id][field] = g(persons[id][field])] *)
Definition update_item (id : string) (g : person → person)
    (persons : Py.dict person) : result (Py.dict person) :=
  do c <- Py.dict_getitem id persons;
  Ok (Py.dict_setitem id (g c) persons).

Definition add_hit (c : person) : person :=
  {| p_id := p_id c; p_distance := p_distance c; p_hits := p_hits c + 1;
     p_name := p_name c; p_image := p_image c |}.

Definition sub_half (c : person) : person :=
  {| p_id := p_id c; p_distance := Py.float_sub (p_distance c) (1 # 2);
     p_hits := p_hits c; p_name := p_name c; p_image := p_image c |}.

Definition set_name (n : string) (c : person) : person :=
  {| p_id := p_id c; p_distance := p_distance c; p_hits := p_hits c;
     p_name := Some n; p_image := p_image c |}.

Definition set_image (i : string) (c : person) : person :=
  {| p_id := p_id c; p_distance := p_distance c; p_hits := p_hits c;
     p_name := p_name c; p_image := Some i |}.

(** One turn of the [for] loop, on the hit [(p, distance)]. *)
Definition loop_body (persons : Py.dict person) (hit : nat * Q)
    : result (Py.dict person) :=
  let '(p, distance) := hit in
  do id <- identity_of p;
  if Py.dict_contains id persons then
    do persons <- update_item id add_hit persons;
    update_item id sub_half persons
  else
    let persons :=
      Py.dict_setitem id
        {| p_id := id; p_distance := Py.round2 distance; p_hits := 1;
           p_name := None; p_image := None |} persons in
    match PERFORMER_DB !! id with
    | Some person =>
        do persons <- update_item id (set_name (md_name person)) persons;
        update_item id (set_image (md_image person)) persons
    | None => Ok persons
    end.

(** The whole [for] loop. *)
Fixpoint aggregate (persons : Py.dict person) (hits : list (nat * Q))
    : result (Py.dict person) :=
  match hits with
  | [] => Ok persons
  | hit :: hits' =>
      do persons <- loop_body persons hit;
      aggregate persons hits'
  end.

Definition rank (persons : Py.dict person) : list person :=
  take 10 (Py.sorted p_distance (Py.dict_values persons)).

Definition lookup_performer (vector : list Q) : M search_result :=
  let* uid := uuid4 in
  let* nn := get_nns_by_vector index vector 50 10000 in
  let '(ids, distances) := nn in
  let* persons := lift (aggregate [] (zip ids distances)) in
  ret {| r_id := uid; r_performers := rank persons |}.

(** The handler of [/search]. *)
Definition confirm (vector : list Q) : M search_result :=
  if negb (Nat.eqb (length vector) 512) then
    raise (HTTPException 400 "Invalid vector size")
  else lookup_performer vector.

(** The end of the handler of [/], from the embedding [face] on: the value
    of [lookup_performer] goes through [response_model=PerformerSearch]. *)
Definition recognise_face (face : list Q) : M PerformerSearch :=
  let* r := lookup_performer face in
  ret (PerformerSearch_validate r).

(** The collaborators of the handler of [/]: the image decoder, the face
    detector and the embedding model. [None] stands for the exception the
    handler catches around the call: any exception of [Image.open], a
    [ValueError] of the detection and normalisation. *)
Section Upload.

Variable Image : Type.
Variable ndarray : Type.
Variable Image_open : string → option Image.
Variable Image_mode : Image → string.
Variable Image_convert : Image → string → Image.
Variable np_array : Image → ndarray.
Variable preprocess_face : ndarray → option ndarray.
Variable normalize_input : ndarray → option ndarray.
Variable model_predict : ndarray → list Q.

Definition allowed_suffixes : list string := [".jpg"; ".jpeg"; ".png"; ".webp"].

(** The handler of [/]. *)
Definition recognise (file : UploadFile) : M PerformerSearch :=
  if negb (Py.str_endswith_any (filename file) allowed_suffixes) then
    raise (HTTPException 400
             "Invalid file type (only .jpg, .jpeg and .png are allowed)")
  else
    let content := file_content file in
    match Image_open content with
    | None => raise (HTTPException 400 "Invalid image file")
    | Some image =>
        let image :=
          if negb (String.eqb (Image_mode image) "RGB")
          then Image_convert image "RGB" else image in
        let image_array := np_array image in
        match
          match preprocess_face image_array with
          | Some img => normalize_input img
          | None => None
          end
        with
        | None => raise (HTTPException 409 "No face detected")
        | Some img =>
            let face := model_predict img in
            recognise_face face
        end
    end.

(** The image the detector is given: the decoded image, converted when its
    mode is not RGB. *)
Definition as_rgb (image : Image) : Image :=
  if negb (String.eqb (Image_mode image) "RGB")
  then Image_convert image "RGB" else image.

End Upload.

(** ** Vocabulary of the aggregation *)

(** The identity key a slot stands for, when the slot is in the map. *)
Definition owner (p : nat) : option string :=
  before_first "=" <$> ANNOY_INDEX !! p.

(** The candidate the first hit of an identity creates. *)
Definition fresh (id : string) (d : Q) : person :=
  {| p_id := id; p_distance := Py.round2 d; p_hits := 1;
     p_name := md_name <$> PERFORMER_DB !! id;
     p_image := md_image <$> PERFORMER_DB !! id |}.

(** What a later hit of the same identity does to its candidate. *)
Definition bump (c : person) : person := sub_half (add_hit c).

(** Whether the slot of the hit [h] resolves to the identity [k]. *)
Definition is_hit_of (k : string) (h : nat * Q) : bool :=
  match identity_of h.1 with
  | Ok k' => String.eqb k' k
  | Raise _ => false
  end.

(** The hits on the slots of identity [k], nearest first. *)
Definition hits_of (k : string) (hits : list (nat * Q)) : list (nat * Q) :=
  List.filter (is_hit_of k) hits.

(** The candidate of identity [k] after the hits [hits]. *)
Definition expected (k : string) (hits : list (nat * Q)) : option person :=
  match hits_of k hits with
  | [] => None
  | (_, d) :: more => Some (Nat.iter (length more) bump (fresh k d))
  end.

(** The identity key [identity_of] finds for a slot, if it finds one. *)
Definition key_of (p : nat) : option string :=
  match identity_of p with
  | Ok k => Some k
  | Raise _ => None
  end.

(** The identities hit, once each, in the order they first appear. *)
Definition identities (hits : list (nat * Q)) : list string :=
  first_occ (omap (fun h : nat * Q => key_of h.1) hits).

(** The candidate a hit makes when its identity is hit this once. *)
Definition made_by (h : nat * Q) (c : person) : Prop :=
  identity_of h.1 = Ok (p_id c) ∧ c = fresh (p_id c) h.2.

(** The hit counts of all the candidates, added up. *)
Definition total_hits (persons : Py.dict person) : nat :=
  sum_list (map p_hits (Py.dict_values persons)).

(** The hits the index answers to a query, as the loop walks them. *)
Definition ann_hits (vector : list Q) : list (nat * Q) :=
  let '(ids, distances) := face_db vector 50 10000 in zip ids distances.


(** ** The built-ins *)

Section PyFacts.

Import Py.

Lemma str_split_cons sep s :
  ∃ ws, str_split sep s = before_first sep s :: ws.
Proof.
  induction s as [|c s [ws IH]]; simpl.
  - by exists [].
  - destruct (Ascii.eqb c sep); [by eexists|].
    rewrite IH. by eexists.
Qed.

Lemma str_split_getitem_0 sep s :
  list_getitem (str_split sep s) 0 = Ok (before_first sep s).
Proof. destruct (str_split_cons sep s) as [ws ->]. reflexivity. Qed.

Lemma before_first_no_sep sep s : occurs sep (before_first sep s) = false.
Proof.
  induction s as [|c s IH]; simpl; [done|].
  destruct (Ascii.eqb c sep) eqn:E; simpl; [done|]. by rewrite E.
Qed.

Lemma before_first_whole sep s :
  occurs sep s = false → before_first sep s = s.
Proof.
  induction s as [|c s IH]; simpl; [done|].
  destruct (Ascii.eqb c sep); simpl; [done|]. intros H. by rewrite IH.
Qed.

Lemma before_first_split sep s :
  occurs sep s = true →
  ∃ rest, s = before_first sep s +:+ String sep rest.
Proof.
  induction s as [|c s IH]; simpl; [done|].
  destruct (Ascii.eqb c sep) eqn:E; simpl.
  - intros _. apply Ascii.eqb_eq in E as ->. by exists s.
  - intros [rest Hr]%IH. exists rest. unfold String.app in *. simpl.
    by rewrite <- Hr.
Qed.

(** The prefix before the first separator is the only way to cut an entry
    into a separator-free key, a separator and a remainder. *)
Lemma before_first_unique sep k rest :
  occurs sep k = false → before_first sep (k +:+ String sep rest) = k.
Proof.
  induction k as [|c k IH]; simpl.
  - intros _. by rewrite Ascii.eqb_refl.
  - destruct (Ascii.eqb c sep); simpl; [done|]. intros H.
    unfold String.app in *. by rewrite IH.
Qed.

Lemma dict_get_setitem_eq {V} k (v : V) d :
  dict_get k (dict_setitem k v d) = Some v.
Proof.
  induction d as [|[k' v'] d IH]; simpl.
  - by rewrite String.eqb_refl.
  - destruct (String.eqb k k') eqn:E; simpl.
    + by rewrite String.eqb_refl.
    + by rewrite E.
Qed.

Lemma dict_get_setitem_ne {V} k k' (v : V) d :
  k ≠ k' → dict_get k' (dict_setitem k v d) = dict_get k' d.
Proof.
  intros Hne. induction d as [|[k0 v0] d IH]; simpl.
  - destruct (String.eqb k' k) eqn:E; [|done].
    apply String.eqb_eq in E. congruence.
  - destruct (String.eqb k k0) eqn:E; simpl.
    + apply String.eqb_eq in E as <-.
      destruct (String.eqb k' k) eqn:E'; [|done].
      apply String.eqb_eq in E'. congruence.
    + by rewrite IH.
Qed.

Lemma dict_get_None_keys {V} k (d : dict V) :
  dict_get k d = None ↔ k ∉ dict_keys d.
Proof.
  induction d as [|[k' v'] d IH]; simpl.
  - split; [intros _; apply not_elem_of_nil|done].
  - rewrite not_elem_of_cons, <- IH.
    destruct (String.eqb k k') eqn:E.
    + apply String.eqb_eq in E. split; [done|]. intros [? _]. done.
    + apply String.eqb_neq in E. tauto.
Qed.

Lemma dict_keys_setitem_old {V} k (v v0 : V) d :
  dict_get k d = Some v0 → dict_keys (dict_setitem k v d) = dict_keys d.
Proof.
  induction d as [|[k' v'] d IH]; simpl; [done|].
  destruct (String.eqb k k') eqn:E; simpl.
  - apply String.eqb_eq in E as ->. done.
  - intros H. by rewrite IH.
Qed.

Lemma dict_keys_setitem_new {V} k (v : V) d :
  dict_get k d = None → dict_keys (dict_setitem k v d) = dict_keys d ++ [k].
Proof.
  induction d as [|[k' v'] d IH]; simpl; [done|].
  destruct (String.eqb k k') eqn:E; simpl; [done|].
  intros H. by rewrite IH.
Qed.

Lemma dict_get_elem_of {V} k (v : V) d :
  NoDup (dict_keys d) → (k, v) ∈ d ↔ dict_get k d = Some v.
Proof.
  induction d as [|[k' v'] d IH]; simpl.
  - intros _. split; [by intros ?%elem_of_nil|done].
  - intros [Hk Hd]%NoDup_cons. rewrite elem_of_cons, IH by done.
    destruct (String.eqb k k') eqn:E.
    + apply String.eqb_eq in E as ->. split.
      * intros [[= ->]|H]; [done|].
        apply dict_get_None_keys in Hk. congruence.
      * intros [= ->]. by left.
    + apply String.eqb_neq in E. split.
      * intros [[= ? ?]|H]; done.
      * intros H. by right.
Qed.

End PyFacts.

(** ** Sorting by a rational key *)

Section Sorting.

Import Py.

Context {A : Type} (key : A → Q).

Local Abbreviation le_key := (le_by key).

Lemma insert_by_Permutation x l : insert_by key x l ≡ₚ x :: l.
Proof.
  induction l as [|y l IH]; simpl; [done|].
  destruct (Qle_bool (key x) (key y)); [done|].
  rewrite IH. apply Permutation_swap.
Qed.

Lemma sorted_Permutation l : sorted key l ≡ₚ l.
Proof.
  induction l as [|x l IH]; simpl; [done|].
  rewrite insert_by_Permutation. by constructor.
Qed.

Lemma Qle_bool_false x y : Qle_bool x y = false → y < x.
Proof.
  intros H. apply Qnot_le_lt. intros Hle%Qle_bool_iff. congruence.
Qed.

Lemma insert_by_StronglySorted x l :
  StronglySorted le_key l → StronglySorted le_key (insert_by key x l).
Proof.
  induction 1 as [|y l Hs IH Hy]; simpl.
  - repeat constructor.
  - destruct (Qle_bool (key x) (key y)) eqn:E.
    + apply Qle_bool_iff in E. constructor; [by constructor|].
      constructor; [done|].
      eapply Forall_impl; [exact Hy|]. intros z Hz. unfold le_by in *.
      by eapply Qle_trans.
    + apply Qle_bool_false in E. constructor; [done|].
      rewrite insert_by_Permutation. constructor; [|done].
      by apply Qlt_le_weak.
Qed.

Lemma sorted_StronglySorted l : StronglySorted le_key (sorted key l).
Proof.
  induction l as [|x l IH]; simpl; [constructor|].
  by apply insert_by_StronglySorted.
Qed.

Lemma insert_by_filter q x l :
  List.filter (fun a => Qeq_bool (key a) q) (insert_by key x l) =
  List.filter (fun a => Qeq_bool (key a) q) (x :: l).
Proof.
  induction l as [|y l IH]; [done|].
  cbn [insert_by]. destruct (Qle_bool (key x) (key y)) eqn:E; [done|].
  cbn [List.filter] in *. rewrite IH.
  destruct (Qeq_bool (key x) q) eqn:Ex; [|done].
  destruct (Qeq_bool (key y) q) eqn:Ey; [|done].
  apply Qle_bool_false in E. apply Qeq_bool_iff in Ex, Ey.
  rewrite Ex, Ey in E. by apply Qlt_irrefl in E.
Qed.

Lemma sorted_filter q l :
  List.filter (fun a => Qeq_bool (key a) q) (sorted key l) =
  List.filter (fun a => Qeq_bool (key a) q) l.
Proof.
  induction l as [|x l IH]; [done|].
  cbn [sorted foldr]. rewrite insert_by_filter.
  cbn [List.filter]. fold (sorted key l). by rewrite IH.
Qed.

Lemma sorted_length l : length (sorted key l) = length l.
Proof. by rewrite sorted_Permutation. Qed.

(** In a sorted list nothing beyond position [n] is below anything before it. *)
Lemma StronglySorted_take_drop n l :
  StronglySorted le_key l →
  Forall (fun b => Forall (fun a => le_key a b) (take n l)) (drop n l).
Proof.
  intros Hs. revert n. induction Hs as [|x l Hs IH Hx]; intros n.
  - by rewrite drop_nil.
  - destruct n as [|n]; simpl.
    + apply Forall_forall. intros; constructor.
    + specialize (IH n). rewrite Forall_forall in IH |- *.
      intros b Hb. constructor; [|by apply IH].
      rewrite Forall_forall in Hx. apply Hx.
      by apply (subseteq_drop n l).
Qed.


(** A sorted list is determined by its classes of equal key: two sorted
    lists that keep every class in the same order are the same list. So
    [sorted] is the only stable sort. *)
Lemma stable_sorted_unique s1 s2 :
  StronglySorted le_key s1 → StronglySorted le_key s2 →
  (∀ q, List.filter (fun a => Qeq_bool (key a) q) s1 =
        List.filter (fun a => Qeq_bool (key a) q) s2) →
  s1 = s2.
Proof.
  intros Hs1. revert s2.
  induction Hs1 as [|a s1 Hs1 IH Ha]; intros s2 Hs2 Heq.
  - destruct s2 as [|b s2]; [done|].
    specialize (Heq (key b)). simpl in Heq.
    by rewrite Qeq_bool_refl in Heq.
  - destruct Hs2 as [|b s2 Hs2 Hb].
    { specialize (Heq (key a)). simpl in Heq.
      by rewrite Qeq_bool_refl in Heq. }
    assert (le_key b a) as Hba.
    { pose proof (Heq (key a)) as H. cbn [List.filter] in H.
      rewrite Qeq_bool_refl in H.
      assert (In a (List.filter (fun x => Qeq_bool (key x) (key a)) (b :: s2)))
        as [Hin _]%filter_In by (cbn [List.filter]; rewrite <- H; by left).
      destruct Hin as [->|Hin]; [apply Qle_refl|].
      rewrite Forall_forall in Hb. by apply Hb, list_elem_of_In. }
    assert (le_key a b) as Hab.
    { pose proof (Heq (key b)) as H. cbn [List.filter] in H.
      rewrite Qeq_bool_refl in H.
      assert (In b (List.filter (fun x => Qeq_bool (key x) (key b)) (a :: s1)))
        as [Hin _]%filter_In by (cbn [List.filter]; rewrite H; by left).
      destruct Hin as [->|Hin]; [apply Qle_refl|].
      rewrite Forall_forall in Ha. by apply Ha, list_elem_of_In. }
    assert (key b == key a) as Hkey by by apply Qle_antisym.
    assert (a = b) as <-.
    { pose proof (Heq (key a)) as H. cbn [List.filter] in H.
      rewrite Qeq_bool_refl in H.
      apply Qeq_bool_iff in Hkey. rewrite Hkey in H. congruence. }
    f_equal. apply IH; [done|]. intros q.
    specialize (Heq q). cbn [List.filter] in Heq.
    destruct (Qeq_bool (key a) q); congruence.
Qed.

Lemma sorted_unique l s :
  StronglySorted le_key s →
  (∀ q, List.filter (fun a => Qeq_bool (key a) q) s =
        List.filter (fun a => Qeq_bool (key a) q) l) →
  s = sorted key l.
Proof.
  intros Hs Hst. apply stable_sorted_unique; [done|apply sorted_StronglySorted|].
  intros q. by rewrite sorted_filter.
Qed.

End Sorting.

(** ** The aggregation loop *)

Section Aggregation.

Import Py.

Lemma identity_of_owner p :
  identity_of p =
  match owner p with
  | Some k => Ok k
  | None => Raise (IndexError "list index out of range")
  end.
Proof.
  unfold identity_of, owner, list_getitem at 1.
  destruct (ANNOY_INDEX !! p) as [e|]; simpl; [|done].
  apply str_split_getitem_0.
Qed.

Lemma key_of_owner p : key_of p = owner p.
Proof. unfold key_of. rewrite identity_of_owner. by destruct (owner p). Qed.

Lemma dict_setitem_twice {V} k (v v' : V) d :
  dict_setitem k v (dict_setitem k v' d) = dict_setitem k v d.
Proof.
  induction d as [|[k0 v0] d IH]; simpl.
  - by rewrite String.eqb_refl.
  - destruct (String.eqb k k0) eqn:E; simpl.
    + by rewrite String.eqb_refl.
    + by rewrite E, IH.
Qed.

Lemma update_item_twice id g1 g2 persons c :
  dict_get id persons = Some c →
  (do persons' <- update_item id g1 persons; update_item id g2 persons') =
  Ok (dict_setitem id (g2 (g1 c)) persons).
Proof.
  intros H. unfold update_item, dict_getitem. rewrite H. simpl.
  rewrite dict_get_setitem_eq. simpl. by rewrite dict_setitem_twice.
Qed.

Lemma loop_body_seen persons p d k c :
  owner p = Some k → dict_get k persons = Some c →
  loop_body persons (p, d) = Ok (dict_setitem k (bump c) persons).
Proof.
  intros Hp Hk. unfold loop_body.
  rewrite identity_of_owner, Hp. simpl.
  unfold dict_contains. rewrite Hk.
  by apply update_item_twice.
Qed.

Lemma loop_body_new persons p d k :
  owner p = Some k → dict_get k persons = None →
  loop_body persons (p, d) = Ok (dict_setitem k (fresh k d) persons).
Proof.
  intros Hp Hk. unfold loop_body.
  rewrite identity_of_owner, Hp. simpl.
  unfold dict_contains. rewrite Hk. unfold fresh.
  destruct (PERFORMER_DB !! k) as [person|]; simpl; [|done].
  erewrite update_item_twice by apply dict_get_setitem_eq.
  by rewrite dict_setitem_twice.
Qed.

Lemma loop_body_out_of_range persons p d :
  owner p = None →
  loop_body persons (p, d) = Raise (IndexError "list index out of range").
Proof.
  intros Hp. unfold loop_body. by rewrite identity_of_owner, Hp.
Qed.

Lemma owner_Some p : is_Some (owner p) ↔ (p < length ANNOY_INDEX)%nat.
Proof. unfold owner. rewrite fmap_is_Some. apply lookup_lt_is_Some. Qed.

Lemma owner_None p : owner p = None ↔ (length ANNOY_INDEX ≤ p)%nat.
Proof. unfold owner. rewrite fmap_None. apply lookup_ge_None. Qed.

Lemma loop_body_in_range persons p d :
  (p < length ANNOY_INDEX)%nat → ∃ persons', loop_body persons (p, d) = Ok persons'.
Proof.
  intros [k Hk]%owner_Some.
  destruct (dict_get k persons) as [c|] eqn:E.
  - eexists. by eapply loop_body_seen.
  - eexists. by eapply loop_body_new.
Qed.

Lemma aggregate_app persons hits1 hits2 :
  aggregate persons (hits1 ++ hits2) =
  (do persons' <- aggregate persons hits1; aggregate persons' hits2).
Proof.
  revert persons. induction hits1 as [|h hits1 IH]; intros persons;
    cbn [aggregate app result_bind]; [done|].
  destruct (loop_body persons h); cbn [result_bind]; [apply IH|done].
Qed.

Lemma aggregate_in_range persons hits :
  Forall (fun h : nat * Q => (h.1 < length ANNOY_INDEX)%nat) hits →
  ∃ persons', aggregate persons hits = Ok persons'.
Proof.
  intros H. revert persons.
  induction H as [|[p d] hits Hp _ IH]; intros persons; cbn [aggregate].
  - by eexists.
  - destruct (loop_body_in_range persons p d Hp) as [persons' ->]. apply IH.
Qed.

Lemma aggregate_out_of_range persons hits :
  Exists (fun h : nat * Q => (length ANNOY_INDEX ≤ h.1)%nat) hits →
  aggregate persons hits = Raise (IndexError "list index out of range").
Proof.
  intros H. revert persons.
  induction H as [[p d] hits Hp|[p d] hits _ IH]; intros persons; cbn [aggregate].
  - apply owner_None in Hp. by rewrite loop_body_out_of_range.
  - destruct (decide (p < length ANNOY_INDEX)%nat) as [Hp|Hp].
    + destruct (loop_body_in_range persons p d Hp) as [persons' ->]. apply IH.
    + rewrite loop_body_out_of_range; [done|]. apply owner_None. lia.
Qed.

End Aggregation.

(** ** What the loop leaves in [persons] *)

Section Invariant.

Import Py.

Lemma first_occ_elem_of x l : x ∈ first_occ l ↔ x ∈ l.
Proof.
  induction l as [|y l IH]; simpl; [done|].
  rewrite !elem_of_cons, <- IH, list_elem_of_In, filter_In, <- list_elem_of_In.
  destruct (String.eqb x y) eqn:E.
  - apply String.eqb_eq in E. simpl. intuition congruence.
  - apply String.eqb_neq in E. simpl. intuition congruence.
Qed.

Lemma first_occ_NoDup l : NoDup (first_occ l).
Proof.
  induction l as [|y l IH]; simpl; constructor.
  - rewrite list_elem_of_In, filter_In. intros [_ H].
    by rewrite String.eqb_refl in H.
  - apply NoDup_ListNoDup, List.NoDup_filter, NoDup_ListNoDup, IH.
Qed.

Lemma first_occ_snoc l x :
  first_occ (l ++ [x]) =
  if bool_decide (x ∈ l) then first_occ l else first_occ l ++ [x].
Proof.
  induction l as [|y l IH]; [done|].
  cbn [app first_occ]. rewrite IH.
  destruct (decide (x = y)) as [->|Hne].
  - rewrite (bool_decide_eq_true_2 (y ∈ y :: l)) by apply list_elem_of_here.
    case_bool_decide; [done|].
    rewrite List.filter_app. simpl. rewrite String.eqb_refl. simpl.
    by rewrite app_nil_r.
  - case_bool_decide as Hx.
    + by rewrite bool_decide_eq_true_2 by by apply list_elem_of_further.
    + rewrite bool_decide_eq_false_2 by (rewrite elem_of_cons; intuition congruence).
      rewrite List.filter_app. simpl.
      apply String.eqb_neq in Hne. by rewrite Hne.
Qed.

Lemma hits_of_snoc k hits h :
  hits_of k (hits ++ [h]) = hits_of k hits ++ (if is_hit_of k h then [h] else []).
Proof. unfold hits_of. by rewrite List.filter_app. Qed.

Lemma expected_snoc_other k hits h :
  is_hit_of k h = false → expected k (hits ++ [h]) = expected k hits.
Proof.
  intros H. unfold expected. by rewrite hits_of_snoc, H, app_nil_r.
Qed.

Lemma expected_snoc_first k hits p d :
  is_hit_of k (p, d) = true → expected k hits = None →
  expected k (hits ++ [(p, d)]) = Some (fresh k d).
Proof.
  intros H. unfold expected. rewrite hits_of_snoc, H.
  destruct (hits_of k hits) as [|[p0 d0] more]; [done|done].
Qed.

Lemma expected_snoc_again k hits h c :
  is_hit_of k h = true → expected k hits = Some c →
  expected k (hits ++ [h]) = Some (bump c).
Proof.
  intros H. unfold expected. rewrite hits_of_snoc, H.
  destruct (hits_of k hits) as [|[p0 d0] more]; [done|].
  intros [= <-]. cbn [app]. by rewrite length_app, Nat.add_1_r.
Qed.

Lemma is_hit_of_owner k k0 p d :
  owner p = Some k0 → is_hit_of k (p, d) = String.eqb k0 k.
Proof. intros H. unfold is_hit_of. simpl. by rewrite identity_of_owner, H. Qed.

Lemma identities_snoc_seen hits p d k :
  owner p = Some k → k ∈ identities hits →
  identities (hits ++ [(p, d)]) = identities hits.
Proof.
  intros Hp Hk. unfold identities in *. rewrite omap_app. simpl.
  rewrite key_of_owner, Hp.
  rewrite first_occ_snoc, bool_decide_eq_true_2; [done|].
  by apply first_occ_elem_of.
Qed.

Lemma identities_snoc_new hits p d k :
  owner p = Some k → k ∉ identities hits →
  identities (hits ++ [(p, d)]) = identities hits ++ [k].
Proof.
  intros Hp Hk. unfold identities in *. rewrite omap_app. simpl.
  rewrite key_of_owner, Hp.
  rewrite first_occ_snoc, bool_decide_eq_false_2; [done|].
  by rewrite <- first_occ_elem_of.
Qed.

(** The dictionary the loop builds from the empty one: every identity hit
    has the candidate [expected] describes, in first-occurrence order. *)
Lemma aggregate_spec hits persons :
  aggregate [] hits = Ok persons →
  (∀ k, dict_get k persons = expected k hits) ∧
  dict_keys persons = identities hits.
Proof.
  revert persons. induction hits as [|[p d] hits IH] using rev_ind; intros persons.
  - intros [= <-]. done.
  - rewrite aggregate_app.
    destruct (aggregate [] hits) as [persons1|] eqn:E; [|done].
    destruct (IH persons1 eq_refl) as [Hget Hkeys].
    cbn [result_bind aggregate].
    destruct (owner p) as [k0|] eqn:Hp;
      [|by rewrite loop_body_out_of_range].
    destruct (dict_get k0 persons1) as [c|] eqn:Hk0.
    + rewrite (loop_body_seen _ _ _ _ _ Hp Hk0). intros [= <-]. split.
      * intros k. destruct (decide (k0 = k)) as [<-|Hne].
        -- rewrite dict_get_setitem_eq. symmetry.
           apply expected_snoc_again; [|by rewrite <- Hget].
           by rewrite (is_hit_of_owner _ _ _ _ Hp), String.eqb_refl.
        -- rewrite dict_get_setitem_ne, Hget by done. symmetry.
           apply expected_snoc_other.
           rewrite (is_hit_of_owner _ _ _ _ Hp). by apply String.eqb_neq.
      * rewrite (dict_keys_setitem_old _ _ _ _ Hk0), Hkeys. symmetry.
        eapply identities_snoc_seen; [done|].
        rewrite <- Hkeys. apply dec_stable. intros Hn.
        apply dict_get_None_keys in Hn. congruence.
    + rewrite (loop_body_new _ _ _ _ Hp Hk0). intros [= <-]. split.
      * intros k. destruct (decide (k0 = k)) as [<-|Hne].
        -- rewrite dict_get_setitem_eq. symmetry.
           apply expected_snoc_first; [|by rewrite <- Hget].
           by rewrite (is_hit_of_owner _ _ _ _ Hp), String.eqb_refl.
        -- rewrite dict_get_setitem_ne, Hget by done. symmetry.
           apply expected_snoc_other.
           rewrite (is_hit_of_owner _ _ _ _ Hp). by apply String.eqb_neq.
      * rewrite (dict_keys_setitem_new _ _ _ Hk0), Hkeys. symmetry.
        eapply identities_snoc_new; [done|].
        rewrite <- Hkeys. by apply dict_get_None_keys.
Qed.

End Invariant.


(** ** Binary64 rounding *)

Section Binary64.

Import Py.

Ltac compare_spec H :=
  first [apply Qeq_alt in H | apply Qlt_alt in H | apply Qgt_alt in H].

Lemma round_half_even_floor q :
  (Qfloor q ≤ round_half_even q ≤ Qfloor q + 1)%Z.
Proof.
  unfold round_half_even.
  destruct (Qcompare _ _); [destruct (Z.even _)|..]; lia.
Qed.

Lemma round_half_even_bounds q :
  q - (1 # 2) <= inject_Z (round_half_even q) ∧
  inject_Z (round_half_even q) <= q + (1 # 2).
Proof.
  unfold round_half_even.
  pose proof (Qfloor_le q) as Hle. pose proof (Qlt_floor q) as Hlt.
  rewrite inject_Z_plus in Hlt. change (inject_Z 1) with 1 in Hlt.
  destruct (Qcompare (q - inject_Z (Qfloor q)) (1 # 2)) eqn:E; compare_spec E.
  - destruct (Z.even (Qfloor q)).
    + split; lra.
    + rewrite inject_Z_plus. change (inject_Z 1) with 1. split; lra.
  - split; lra.
  - rewrite inject_Z_plus. change (inject_Z 1) with 1. split; lra.
Qed.

Lemma round_half_even_mono q1 q2 :
  q1 <= q2 → (round_half_even q1 ≤ round_half_even q2)%Z.
Proof.
  intros Hq. pose proof (Qfloor_resp_le _ _ Hq) as Hfl.
  destruct (Z.eq_dec (Qfloor q1) (Qfloor q2)) as [Heq|Hne].
  - unfold round_half_even. rewrite <- Heq.
    destruct (Qcompare (q1 - inject_Z (Qfloor q1)) (1 # 2)) eqn:E1;
      destruct (Qcompare (q2 - inject_Z (Qfloor q1)) (1 # 2)) eqn:E2;
      try (destruct (Z.even (Qfloor q1))); try lia; exfalso;
      compare_spec E1; compare_spec E2; lra.
  - pose proof (round_half_even_floor q1). pose proof (round_half_even_floor q2).
    lia.
Qed.

Lemma round_half_even_comp q1 q2 : q1 == q2 → round_half_even q1 = round_half_even q2.
Proof.
  intros H. apply Z.le_antisymm; apply round_half_even_mono; lra.
Qed.

Lemma round_half_even_Z n : round_half_even (inject_Z n) = n.
Proof.
  unfold round_half_even. rewrite Qfloor_Z.
  destruct (Qcompare _ _) eqn:E; compare_spec E; [exfalso; lra|done|exfalso; lra].
Qed.

Lemma round_half_even_le_Z q n : q <= inject_Z n → (round_half_even q ≤ n)%Z.
Proof.
  intros H. rewrite <- (round_half_even_Z n). by apply round_half_even_mono.
Qed.

Lemma round_half_even_ge_Z q n : inject_Z n <= q → (n ≤ round_half_even q)%Z.
Proof.
  intros H. rewrite <- (round_half_even_Z n) at 1. by apply round_half_even_mono.
Qed.

Lemma round_to_53_eq s :
  round_to_53 s = (round_half_even (s / inject_Z (2 ^ expo s)) * 2 ^ expo s)%Z.
Proof. reflexivity. Qed.

Lemma expo_nonneg s : (0 ≤ expo s)%Z.
Proof. unfold expo. lia. Qed.

Lemma pow2_pos e : (0 ≤ e)%Z → (0 < 2 ^ e)%Z.
Proof. intros. by apply Z.pow_pos_nonneg. Qed.

Lemma expo_upper s : 0 <= s → s < inject_Z (2 ^ (expo s + 53)).
Proof.
  intros Hs. pose proof (Qlt_floor s) as Hlt.
  assert (0 ≤ Qfloor s)%Z as Hk.
  { rewrite <- (Qfloor_Z 0). by apply Qfloor_resp_le. }
  eapply Qlt_le_trans; [exact Hlt|]. rewrite <- Zle_Qle.
  assert (Qfloor s < 2 ^ (expo s + 53))%Z; [|lia].
  destruct (Z.eq_dec (Qfloor s) 0%Z) as [Hz|Hne].
  - rewrite Hz. apply pow2_pos. pose proof (expo_nonneg s). lia.
  - pose proof (Z.log2_spec (Qfloor s) ltac:(lia)) as [_ Hu].
    eapply Z.lt_le_trans; [exact Hu|].
    apply Z.pow_le_mono_r; [lia|]. unfold expo. lia.
Qed.

Lemma expo_lower s : (0 < expo s)%Z → inject_Z (2 ^ (expo s + 52)) <= s.
Proof.
  intros He. eapply Qle_trans; [|apply Qfloor_le]. rewrite <- Zle_Qle.
  unfold expo in *.
  assert (0 < Qfloor s)%Z as Hk.
  { destruct (Z.lt_trichotomy (Qfloor s) 0%Z) as [H|[H|H]]; [|  |done].
    - rewrite Z.log2_nonpos in He by lia. lia.
    - rewrite H in He. simpl in He. lia. }
  pose proof (Z.log2_spec (Qfloor s) Hk) as [Hl _].
  replace (Z.max 0 (Z.log2 (Qfloor s) - 52) + 52)%Z with (Z.log2 (Qfloor s)) by lia.
  done.
Qed.

Lemma expo_mono s t : s <= t → (expo s ≤ expo t)%Z.
Proof.
  intros H. unfold expo. pose proof (Qfloor_resp_le _ _ H).
  pose proof (Z.log2_le_mono (Qfloor s) (Qfloor t) ltac:(lia)). lia.
Qed.

Lemma Qdiv_le_Z s P M :
  (0 < P)%Z → s <= inject_Z (M * P) → s / inject_Z P <= inject_Z M.
Proof.
  intros HP Hs. apply Qle_shift_div_r.
  - change 0 with (inject_Z 0). by rewrite <- Zlt_Qlt.
  - by rewrite <- inject_Z_mult.
Qed.

Lemma Qdiv_ge_Z s P M :
  (0 < P)%Z → inject_Z (M * P) <= s → inject_Z M <= s / inject_Z P.
Proof.
  intros HP Hs. apply Qle_shift_div_l.
  - change 0 with (inject_Z 0). by rewrite <- Zlt_Qlt.
  - by rewrite <- inject_Z_mult.
Qed.

Lemma round_to_53_upper s : 0 <= s → (round_to_53 s ≤ 2 ^ (expo s + 53))%Z.
Proof.
  intros Hs. rewrite round_to_53_eq.
  pose proof (expo_nonneg s) as He. pose proof (pow2_pos _ He) as HP.
  rewrite (Z.add_comm (expo s)), Z.pow_add_r by lia.
  apply Z.mul_le_mono_nonneg_r; [lia|].
  apply round_half_even_le_Z, Qdiv_le_Z; [done|].
  rewrite <- Z.pow_add_r, (Z.add_comm 53) by lia.
  apply Qlt_le_weak. by apply expo_upper.
Qed.

Lemma round_to_53_lower s :
  (0 < expo s)%Z → (2 ^ (expo s + 52) ≤ round_to_53 s)%Z.
Proof.
  intros He. rewrite round_to_53_eq.
  pose proof (pow2_pos (expo s) ltac:(lia)) as HP.
  rewrite (Z.add_comm (expo s)), Z.pow_add_r by lia.
  apply Z.mul_le_mono_nonneg_r; [lia|].
  apply round_half_even_ge_Z, Qdiv_ge_Z; [done|].
  rewrite <- Z.pow_add_r, (Z.add_comm 52) by lia.
  by apply expo_lower.
Qed.

Lemma round_to_53_nonneg s : 0 <= s → (0 ≤ round_to_53 s)%Z.
Proof.
  intros Hs. rewrite round_to_53_eq.
  pose proof (pow2_pos _ (expo_nonneg s)) as HP.
  apply Z.mul_nonneg_nonneg; [|lia].
  apply round_half_even_ge_Z. apply Qle_shift_div_l.
  - change 0 with (inject_Z 0). by rewrite <- Zlt_Qlt.
  - change (inject_Z 0) with 0. lra.
Qed.

Lemma round_to_53_mono s t : 0 <= s → s <= t → (round_to_53 s ≤ round_to_53 t)%Z.
Proof.
  intros Hs Hst. pose proof (expo_mono _ _ Hst) as He.
  destruct (Z.eq_dec (expo s) (expo t)) as [Heq|Hne].
  - rewrite !round_to_53_eq, Heq.
    pose proof (pow2_pos _ (expo_nonneg t)) as HP.
    apply Z.mul_le_mono_nonneg_r; [lia|].
    apply round_half_even_mono. apply Qmult_le_compat_r; [done|].
    apply Qinv_le_0_compat. change 0 with (inject_Z 0). rewrite <- Zle_Qle. lia.
  - pose proof (expo_nonneg s) as He0.
    etransitivity; [by apply round_to_53_upper|].
    etransitivity; [|apply round_to_53_lower; lia].
    apply Z.pow_le_mono_r; lia.
Qed.

Lemma round_to_53_comp s t : s == t → round_to_53 s = round_to_53 t.
Proof.
  intros H. unfold round_to_53. rewrite (Qfloor_comp _ _ H).
  apply (f_equal (fun x => (x * _)%Z)). apply round_half_even_comp.
  by rewrite H.
Qed.

Lemma round_to_53_exact N :
  (0 ≤ N)%Z → (2 ^ expo (inject_Z N) | N)%Z → round_to_53 (inject_Z N) = N.
Proof.
  intros HN [c Hc]. rewrite round_to_53_eq.
  pose proof (pow2_pos _ (expo_nonneg (inject_Z N))) as HP.
  set (P := (2 ^ expo (inject_Z N))%Z) in *.
  assert (inject_Z N / inject_Z P == inject_Z c) as Hq.
  { rewrite Hc, inject_Z_mult. field.
    change 0 with (inject_Z 0). rewrite inject_Z_injective. lia. }
  rewrite (round_half_even_comp _ _ Hq), round_half_even_Z. lia.
Qed.

Lemma round_to_53_idem s :
  0 <= s → round_to_53 (inject_Z (round_to_53 s)) = round_to_53 s.
Proof.
  intros Hs. pose proof (round_to_53_nonneg s Hs) as H0.
  apply round_to_53_exact; [done|].
  pose proof (round_to_53_upper s Hs) as Hu.
  pose proof (expo_nonneg s) as He.
  unfold expo at 1. rewrite Qfloor_Z.
  destruct (Z.eq_dec (round_to_53 s) (2 ^ (expo s + 53))%Z) as [Heq|Hne].
  - rewrite Heq, Z.log2_pow2 by lia.
    replace (Z.max 0 (expo s + 53 - 52)) with (expo s + 1)%Z by lia.
    exists (2 ^ 52)%Z. rewrite <- Z.pow_add_r by lia. f_equal. lia.
  - assert (Z.max 0 (Z.log2 (round_to_53 s) - 52) ≤ expo s)%Z as Hle.
    { destruct (Z.eq_dec (round_to_53 s) 0%Z) as [->|Hnz]; [simpl; lia|].
      assert (Z.log2 (round_to_53 s) < expo s + 53)%Z; [|lia].
      apply Z.log2_lt_pow2; lia. }
    etransitivity; [|rewrite round_to_53_eq; by eexists].
    set (e' := Z.max 0 (Z.log2 (round_to_53 s) - 52)) in *.
    exists (2 ^ (expo s - e'))%Z. rewrite <- Z.pow_add_r by lia. f_equal. lia.
Qed.

Lemma round_to_53_error s :
  0 <= s →
  Qabs (inject_Z (round_to_53 s) - s) <= (1 # 2) + s / inject_Z (2 ^ 53).
Proof.
  intros Hs. rewrite round_to_53_eq.
  pose proof (expo_nonneg s) as He. pose proof (pow2_pos _ He) as HP.
  set (P := (2 ^ expo s)%Z) in *.
  assert (0 < inject_Z P) as HPq
    by (change 0 with (inject_Z 0); by rewrite <- Zlt_Qlt).
  destruct (round_half_even_bounds (s / inject_Z P)) as [H1 H2].
  set (m := round_half_even (s / inject_Z P)) in *.
  assert (s / inject_Z P * inject_Z P == s) as Hsp
    by (field; lra).
  assert (inject_Z P * (1 # 2) <= (1 # 2) + s / inject_Z (2 ^ 53)) as HPb.
  { destruct (Z.eq_dec (expo s) 0%Z) as [Hz|Hnz].
    - unfold P. rewrite Hz. change (inject_Z (2 ^ 0)) with 1.
      assert (0 <= s / inject_Z (2 ^ 53)); [|lra].
      apply Qle_shift_div_l; [reflexivity|lra].
    - pose proof (expo_lower s ltac:(lia)) as Hl.
      rewrite Z.pow_add_r, inject_Z_mult in Hl by lia. fold P in Hl.
      assert (inject_Z P * (1 # 2) <= s / inject_Z (2 ^ 53)); [|lra].
      apply Qle_shift_div_l; [reflexivity|].
      change (inject_Z (2 ^ 53)) with (2 * inject_Z (2 ^ 52)). lra. }
  rewrite inject_Z_mult. apply Qabs_Qle_condition. split.
  - assert ((s / inject_Z P - (1 # 2)) * inject_Z P <= inject_Z m * inject_Z P)
      by (apply Qmult_le_compat_r; lra).
    lra.
  - assert (inject_Z m * inject_Z P <= (s / inject_Z P + (1 # 2)) * inject_Z P)
      by (apply Qmult_le_compat_r; lra).
    lra.
Qed.

Lemma subnormal_scale_pos : 0 < inject_Z subnormal_scale.
Proof. reflexivity. Qed.

Lemma binary64_nonneg_eq q : 0 <= q → binary64 q == magnitude q.
Proof.
  intros Hq. unfold binary64, magnitude.
  apply Qle_bool_iff in Hq as Hb. rewrite Hb, Qred_correct.
  rewrite (round_to_53_comp (Qabs q * inject_Z subnormal_scale)
             (q * inject_Z subnormal_scale)); [reflexivity|].
  by rewrite Qabs_pos.
Qed.

Lemma binary64_neg_eq q : q < 0 → binary64 q == - magnitude (- q).
Proof.
  intros Hq. unfold binary64, magnitude.
  destruct (Qle_bool 0 q) eqn:Hb; [apply Qle_bool_iff in Hb; lra|].
  rewrite Qred_correct.
  rewrite (round_to_53_comp (Qabs q * inject_Z subnormal_scale)
             (- q * inject_Z subnormal_scale)); [reflexivity|].
  rewrite Qabs_neg by lra. reflexivity.
Qed.

Lemma magnitude_comp x y : x == y → magnitude x == magnitude y.
Proof.
  intros H. unfold magnitude.
  rewrite (round_to_53_comp (x * inject_Z subnormal_scale)
             (y * inject_Z subnormal_scale)); [reflexivity|].
  by rewrite H.
Qed.

Lemma magnitude_nonneg q : 0 <= q → 0 <= magnitude q.
Proof.
  intros Hq. unfold magnitude. pose proof subnormal_scale_pos as HS.
  apply Qle_shift_div_l; [done|]. rewrite Qmult_0_l.
  change 0 with (inject_Z 0). rewrite <- Zle_Qle.
  apply round_to_53_nonneg. apply Qmult_le_0_compat; lra.
Qed.

Lemma magnitude_mono x y : 0 <= x → x <= y → magnitude x <= magnitude y.
Proof.
  intros Hx Hxy. unfold magnitude. pose proof subnormal_scale_pos as HS.
  apply Qmult_le_compat_r; [|apply Qinv_le_0_compat; lra].
  rewrite <- Zle_Qle. apply round_to_53_mono.
  - apply Qmult_le_0_compat; lra.
  - apply Qmult_le_compat_r; lra.
Qed.

Lemma binary64_comp x y : x == y → binary64 x = binary64 y.
Proof.
  intros H. unfold binary64. apply Qred_complete.
  rewrite (round_to_53_comp (Qabs x * inject_Z subnormal_scale)
             (Qabs y * inject_Z subnormal_scale)) by (by rewrite H).
  destruct (Qle_bool 0 x) eqn:Hx, (Qle_bool 0 y) eqn:Hy; try reflexivity;
    exfalso.
  - apply Qle_bool_iff in Hx. rewrite H in Hx. apply Qle_bool_iff in Hx. congruence.
  - apply Qle_bool_iff in Hy. rewrite <- H in Hy. apply Qle_bool_iff in Hy. congruence.
Qed.

Lemma binary64_mono x y : x <= y → binary64 x <= binary64 y.
Proof.
  intros Hxy. destruct (Qlt_le_dec x 0) as [Hx|Hx], (Qlt_le_dec y 0) as [Hy|Hy].
  - rewrite (binary64_neg_eq x Hx), (binary64_neg_eq y Hy).
    pose proof (magnitude_mono (- y) (- x) ltac:(lra) ltac:(lra)). lra.
  - rewrite (binary64_neg_eq x Hx), (binary64_nonneg_eq y Hy).
    pose proof (magnitude_nonneg (- x) ltac:(lra)).
    pose proof (magnitude_nonneg y Hy). lra.
  - lra.
  - rewrite (binary64_nonneg_eq x Hx), (binary64_nonneg_eq y Hy).
    by apply magnitude_mono.
Qed.

Lemma binary64_nonneg x : 0 <= x → 0 <= binary64 x.
Proof. intros H. rewrite (binary64_nonneg_eq x H). by apply magnitude_nonneg. Qed.

Lemma magnitude_idem q : 0 <= q → magnitude (magnitude q) == magnitude q.
Proof.
  intros Hq. unfold magnitude at 1. pose proof subnormal_scale_pos as HS.
  rewrite (round_to_53_comp _ (inject_Z (round_to_53 (q * inject_Z subnormal_scale)))).
  - rewrite round_to_53_idem; [reflexivity|]. apply Qmult_le_0_compat; lra.
  - unfold magnitude. field. lra.
Qed.

Lemma binary64_canon x : Qred (binary64 x) = binary64 x.
Proof. unfold binary64. apply Qred_complete, Qred_correct. Qed.

Lemma binary64_idem x : binary64 (binary64 x) = binary64 x.
Proof.
  assert (binary64 (binary64 x) == binary64 x) as H.
  { destruct (Qlt_le_dec x 0) as [Hx|Hx].
    - pose proof (magnitude_nonneg (- x) ltac:(lra)) as Hm.
      destruct (Qle_lt_or_eq _ _ Hm) as [Hpos|Hzero].
      + rewrite (binary64_comp _ _ (binary64_neg_eq x Hx)).
        rewrite binary64_neg_eq by lra.
        rewrite (binary64_neg_eq x Hx).
        assert (magnitude (- - magnitude (- x)) == magnitude (magnitude (- x))) as ->.
        { unfold magnitude at 1 3. 
          rewrite (round_to_53_comp (- - magnitude (- x) * inject_Z subnormal_scale)
                     (magnitude (- x) * inject_Z subnormal_scale)); [reflexivity|].
          ring. }
        rewrite magnitude_idem by lra. reflexivity.
      + assert (binary64 x == 0) as Hb by (rewrite (binary64_neg_eq x Hx); lra).
        rewrite (binary64_comp _ _ Hb). rewrite Hb. reflexivity.
    - rewrite (binary64_comp _ _ (binary64_nonneg_eq x Hx)).
      rewrite binary64_nonneg_eq by (by apply magnitude_nonneg).
      rewrite (binary64_nonneg_eq x Hx). by apply magnitude_idem. }
  apply Qred_complete in H. by rewrite !binary64_canon in H.
Qed.

(** A rational that is a multiple of a power of two, with at most 53
    significant bits, is a binary64 number. *)
Lemma binary64_exact N q :
  (0 ≤ N)%Z → (2 ^ expo (inject_Z N) | N)%Z →
  Qabs q * inject_Z subnormal_scale == inject_Z N →
  binary64 q == q.
Proof.
  intros HN Hdiv Hq. pose proof subnormal_scale_pos as HS.
  assert (magnitude (Qabs q) == Qabs q) as Hm.
  { unfold magnitude. rewrite (round_to_53_comp _ _ Hq), round_to_53_exact by done.
    rewrite <- Hq. field. lra. }
  destruct (Qlt_le_dec q 0) as [Hneg|Hpos].
  - rewrite (binary64_neg_eq q Hneg).
    assert (Qabs q == - q) as Ha by (apply Qabs_neg; lra).
    rewrite <- (magnitude_comp _ _ Ha), Hm, Ha. ring.
  - rewrite (binary64_nonneg_eq q Hpos).
    assert (Qabs q == q) as Ha by (by apply Qabs_pos).
    by rewrite <- (magnitude_comp _ _ Ha), Hm.
Qed.

Lemma binary64_half_integer k :
  (0 ≤ k ≤ 2 ^ 53)%Z → binary64 (- (inject_Z k * (1 # 2))) == - (inject_Z k * (1 # 2)).
Proof.
  intros Hk. apply (binary64_exact (k * 2 ^ 1073)).
  - lia.
  - unfold expo. rewrite Qfloor_Z.
    destruct (Z.eq_dec k 0%Z) as [->|Hk0]; [apply Z.divide_0_r|].
    rewrite Z.log2_mul_pow2 by lia.
    destruct (Z.eq_dec k (2 ^ 53)%Z) as [->|Hk1].
    + rewrite Z.log2_pow2 by lia.
      exists (2 ^ 52)%Z. rewrite <- !Z.pow_add_r by lia. reflexivity.
    + assert (Z.log2 k < 53)%Z by (apply Z.log2_lt_pow2; lia).
      set (e := Z.max 0 (1073 + Z.log2 k - 52)).
      assert (0 ≤ e ≤ 1073)%Z as He by lia.
      exists (k * 2 ^ (1073 - e))%Z.
      rewrite <- Z.mul_assoc, <- Z.pow_add_r by lia. do 2 f_equal. lia.
  - rewrite Qabs_opp, Qabs_pos.
    + rewrite inject_Z_mult.
      change (inject_Z subnormal_scale) with (2 * inject_Z (2 ^ 1073)). ring.
    + apply Qmult_le_0_compat; [|done].
      change 0 with (inject_Z 0). rewrite <- Zle_Qle. lia.
Qed.

Lemma binary64_error q :
  Qabs (binary64 q - q) <=
  (1 # 2) / inject_Z subnormal_scale + Qabs q / inject_Z (2 ^ 53).
Proof.
  pose proof subnormal_scale_pos as HS.
  assert (∀ x, 0 <= x →
            Qabs (magnitude x - x) <=
            (1 # 2) / inject_Z subnormal_scale + x / inject_Z (2 ^ 53)) as Hmag.
  { intros x Hx.
    pose proof (round_to_53_error (x * inject_Z subnormal_scale)
                  ltac:(apply Qmult_le_0_compat; lra)) as He.
    set (r := round_to_53 (x * inject_Z subnormal_scale)) in *.
    assert (magnitude x - x ==
            (inject_Z r - x * inject_Z subnormal_scale) / inject_Z subnormal_scale)
      as -> by (unfold magnitude; fold r; field; lra).
    unfold Qdiv at 1. rewrite Qabs_Qmult.
    rewrite (Qabs_pos (/ _)) by (apply Qinv_le_0_compat; lra).
    apply Qle_shift_div_r; [done|].
    eapply Qle_trans; [exact He|]. apply Qle_lteq. right. field.
    split; [discriminate|lra]. }
  destruct (Qlt_le_dec q 0) as [Hneg|Hpos].
  - rewrite (binary64_neg_eq q Hneg).
    assert (- magnitude (- q) - q == - (magnitude (- q) - - q)) as -> by ring.
    rewrite Qabs_opp, (Qabs_neg q) by lra. apply Hmag. lra.
  - rewrite (binary64_nonneg_eq q Hpos), (Qabs_pos q) by done. by apply Hmag.
Qed.

Lemma decrement_le x : binary64 x == x → decrement x <= x.
Proof.
  intros Hx. unfold decrement, float_sub.
  eapply Qle_trans; [apply (binary64_mono _ x); lra|].
  apply Qle_lteq. by right.
Qed.

Lemma decrement_binary64 x : binary64 (decrement x) = decrement x.
Proof. apply binary64_idem. Qed.

Lemma iter_decrement_le n x :
  binary64 x == x →
  Nat.iter n decrement x <= x ∧
  binary64 (Nat.iter n decrement x) == Nat.iter n decrement x.
Proof.
  intros Hx. induction n as [|n [IH1 IH2]]; [split; [apply Qle_refl|done]|].
  rewrite Nat.iter_succ. split.
  - eapply Qle_trans; [by apply decrement_le|done].
  - rewrite decrement_binary64. reflexivity.
Qed.

Lemma binary64_stall :
  binary64 (- inject_Z (2 ^ 52) - (1 # 2)) = - inject_Z (2 ^ 52).
Proof. vm_compute. reflexivity. Qed.

(** However many halves are taken off a non-negative float, the result is
    not below the exact difference; the subtraction stalls at [- 2 ^ 52]. *)
Lemma iter_decrement_lower n x :
  0 <= x →
  - (inject_Z (Z.of_nat n) * (1 # 2)) <= Nat.iter n decrement x ∧
  - inject_Z (2 ^ 52) <= Nat.iter n decrement x.
Proof.
  intros Hx. induction n as [|n [IH1 IH2]].
  - change (Nat.iter 0 decrement x) with x.
    change (inject_Z (Z.of_nat 0)) with 0. split; [lra|].
    eapply Qle_trans; [|exact Hx]. by vm_compute.
  - rewrite Nat.iter_succ. set (y := Nat.iter n decrement x) in *.
    assert (- inject_Z (2 ^ 52) <= decrement y) as Hstall.
    { rewrite <- binary64_stall. apply binary64_mono. lra. }
    split; [|done].
    rewrite Nat2Z.inj_succ. unfold Z.succ.
    destruct (Z_le_gt_dec (Z.of_nat n + 1) (2 ^ 53)) as [Hsmall|Hbig].
    + rewrite <- (binary64_half_integer (Z.of_nat n + 1)) by lia.
      apply binary64_mono. rewrite inject_Z_plus.
      change (inject_Z 1) with 1. lra.
    + eapply Qle_trans; [|exact Hstall].
      assert (inject_Z (2 ^ 53) <= inject_Z (Z.of_nat n + 1)) as Hq
        by (rewrite <- Zle_Qle; lia).
      change (inject_Z (2 ^ 53)) with (2 * inject_Z (2 ^ 52)) in Hq. lra.
Qed.

End Binary64.

(** ** The candidates and their ranking *)

Section Candidates.

Import Py.

Lemma iter_bump_id n c : p_id (Nat.iter n bump c) = p_id c.
Proof. induction n as [|n IH]; [done|]. simpl. exact IH. Qed.

Lemma iter_bump_name n c : p_name (Nat.iter n bump c) = p_name c.
Proof. induction n as [|n IH]; [done|]. simpl. exact IH. Qed.

Lemma iter_bump_image n c : p_image (Nat.iter n bump c) = p_image c.
Proof. induction n as [|n IH]; [done|]. simpl. exact IH. Qed.

Lemma iter_bump_hits n c : p_hits (Nat.iter n bump c) = (p_hits c + n)%nat.
Proof. induction n as [|n IH]; simpl; [lia|]. rewrite IH. lia. Qed.

Lemma iter_bump_distance n c :
  p_distance (Nat.iter n bump c) = Nat.iter n decrement (p_distance c).
Proof.
  induction n as [|n IH]; [done|].
  change (p_distance (bump (Nat.iter n bump c))
          = decrement (Nat.iter n decrement (p_distance c))).
  by rewrite <- IH.
Qed.

Lemma expected_id k hits c : expected k hits = Some c → p_id c = k.
Proof.
  unfold expected. destruct (hits_of k hits) as [|[p d] more]; [done|].
  intros [= <-]. by rewrite iter_bump_id.
Qed.

Lemma expected_hits k hits c :
  expected k hits = Some c → p_hits c = length (hits_of k hits).
Proof.
  unfold expected. destruct (hits_of k hits) as [|[p d] more]; [done|].
  intros [= <-]. rewrite iter_bump_hits. simpl. lia.
Qed.

Lemma expected_name k hits c :
  expected k hits = Some c →
  p_name c = md_name <$> PERFORMER_DB !! k ∧
  p_image c = md_image <$> PERFORMER_DB !! k.
Proof.
  unfold expected. destruct (hits_of k hits) as [|[p d] more]; [done|].
  intros [= <-]. by rewrite iter_bump_name, iter_bump_image.
Qed.

(** The stored distance is the rounded distance of the nearest hit, after
    one float subtraction of a half for every further hit. *)
Lemma expected_distance k hits c :
  expected k hits = Some c →
  ∃ p d more, hits_of k hits = (p, d) :: more ∧
    p_distance c = Nat.iter (length more) decrement (round2 d).
Proof.
  unfold expected. destruct (hits_of k hits) as [|[p d] more]; [done|].
  intros [= <-]. exists p, d, more. split; [done|].
  apply iter_bump_distance.
Qed.

Lemma aggregate_NoDup hits persons :
  aggregate [] hits = Ok persons → NoDup (dict_keys persons).
Proof.
  intros [_ ->]%aggregate_spec. apply first_occ_NoDup.
Qed.

Lemma aggregate_values hits persons c :
  aggregate [] hits = Ok persons → c ∈ dict_values persons →
  expected (p_id c) hits = Some c.
Proof.
  intros Hagg Hc. pose proof (aggregate_NoDup _ _ Hagg) as Hnd.
  destruct (aggregate_spec _ _ Hagg) as [Hget _].
  unfold dict_values in Hc. apply list_elem_of_fmap in Hc as [[k c'] [-> Hin]].
  apply dict_get_elem_of in Hin; [|done]. rewrite Hget in Hin.
  simpl. by rewrite (expected_id _ _ _ Hin).
Qed.

Lemma aggregate_ids hits persons :
  aggregate [] hits = Ok persons →
  map p_id (dict_values persons) = identities hits.
Proof.
  intros Hagg. destruct (aggregate_spec _ _ Hagg) as [Hget <-].
  pose proof (aggregate_NoDup _ _ Hagg) as Hnd.
  unfold dict_values, dict_keys. rewrite map_map.
  apply map_ext_in. intros [k c] Hin%list_elem_of_In.
  apply dict_get_elem_of in Hin; [|done]. rewrite Hget in Hin.
  by apply expected_id in Hin.
Qed.

Lemma rank_sublist persons :
  ∃ ranking, rank persons = take 10 ranking ∧
    ranking ≡ₚ dict_values persons ∧
    StronglySorted by_distance ranking ∧
    stable_wrt (dict_values persons) ranking.
Proof.
  exists (sorted p_distance (dict_values persons)). split; [done|].
  split; [apply sorted_Permutation|].
  split; [apply sorted_StronglySorted|].
  intros q. apply sorted_filter.
Qed.

Lemma rank_elem_of persons c : c ∈ rank persons → c ∈ dict_values persons.
Proof.
  unfold rank. intros Hc.
  apply (subseteq_take 10) in Hc. by rewrite sorted_Permutation in Hc.
Qed.

Lemma rank_NoDup hits persons :
  aggregate [] hits = Ok persons → NoDup (map p_id (rank persons)).
Proof.
  intros Hagg. unfold rank.
  eapply sublist_NoDup; [|apply fmap_sublist, sublist_take].
  change (NoDup (p_id <$> sorted p_distance (dict_values persons))).
  rewrite sorted_Permutation.
  change (NoDup (map p_id (dict_values persons))).
  rewrite (aggregate_ids _ _ Hagg). apply first_occ_NoDup.
Qed.

End Candidates.

(** ** Running a request *)

Section Request.

Lemma lookup_performer_eq vector w :
  length vector = 512%nat →
  lookup_performer vector w =
  (match aggregate [] (ann_hits vector) with
   | Ok persons =>
       Ok {| r_id := uuid_source w (uuid_drawn w); r_performers := rank persons |}
   | Raise e => Raise e
   end, after_query vector w).
Proof.
  intros Hlen. unfold lookup_performer, bind, uuid4, get_nns_by_vector, lift, ret.
  cbn [f index uuid_source uuid_drawn index_queries nns].
  unfold vector_size. rewrite Hlen, Nat.eqb_refl. unfold ann_hits.
  destruct (face_db vector 50 10000) as [ids distances].
  by destruct (aggregate [] (zip ids distances)).
Qed.

Lemma confirm_eq vector w :
  length vector = 512%nat → confirm vector w = lookup_performer vector w.
Proof. intros Hlen. unfold confirm. by rewrite Hlen, Nat.eqb_refl. Qed.

End Request.


(** ** Properties of a resolution *)

Section Properties.

Import Py.

Lemma identity_of_Ok p k : identity_of p = Ok k ↔ owner p = Some k.
Proof.
  rewrite identity_of_owner. destruct (owner p); split; congruence.
Qed.

Lemma confirm_rejects_wrong_size_aux vector w :
  length vector ≠ 512%nat →
  confirm vector w = (Raise (HTTPException 400 "Invalid vector size"), w) ∧
  index_queries (confirm vector w).2 = index_queries w.
Proof.
  intros Hlen. apply Nat.eqb_neq in Hlen.
  unfold confirm. rewrite Hlen. done.
Qed.

(** C1. Aggregation, as the code does it. The first hit of an identity
    creates its candidate with the raw distance rounded to two decimals and
    one hit. A later hit of the same identity adds one hit and replaces the
    stored distance by the float difference of it and 0.5, whatever the raw
    distance of the hit: the binary64 number nearest to the exact
    difference, so within half a unit in the last place of it. After the
    loop a candidate stores the rounded distance of its first hit after one
    such subtraction per further hit. For the hits (slotA, 1.0),
    (slotB, 1.0), (slotA2, 1.2), with slotA and slotA2 of identity X and
    slotB of identity Y, the candidates are X with distance 0.5 and two
    hits and Y with distance 1.0 and one hit, ranked X before Y. *)
Theorem aggregation_seeds_then_subtracts :
  (∀ persons p d k,
     identity_of p = Ok k → dict_get k persons = None →
     ∃ persons' c, loop_body persons (p, d) = Ok persons' ∧
       dict_get k persons' = Some c ∧
       p_distance c = round2 d ∧ p_hits c = 1%nat) ∧
  (∀ persons p d k c,
     identity_of p = Ok k → dict_get k persons = Some c →
     ∃ persons' c', loop_body persons (p, d) = Ok persons' ∧
       dict_get k persons' = Some c' ∧
       p_hits c' = (p_hits c + 1)%nat ∧
       p_distance c' = binary64 (p_distance c - (1 # 2)) ∧
       Qabs (p_distance c' - (p_distance c - (1 # 2))) <=
         (1 # 2) / inject_Z subnormal_scale
         + Qabs (p_distance c - (1 # 2)) / inject_Z (2 ^ 53) ∧
       ∀ d', loop_body persons (p, d') = Ok persons') ∧
  (∀ hits persons c,
     aggregate [] hits = Ok persons → c ∈ dict_values persons →
     ∃ p d more, hits_of (p_id c) hits = (p, d) :: more ∧
       p_hits c = S (length more) ∧
       p_distance c = Nat.iter (length more) decrement (round2 d)) ∧
  (∀ slotA slotB slotA2 X Y,
     identity_of slotA = Ok X → identity_of slotA2 = Ok X →
     identity_of slotB = Ok Y → X ≠ Y →
     ∃ persons cX cY,
       aggregate [] [(slotA, 1); (slotB, 1); (slotA2, 12 # 10)] = Ok persons ∧
       dict_values persons = [cX; cY] ∧
       p_id cX = X ∧ p_distance cX = 1 # 2 ∧ p_hits cX = 2%nat ∧
       p_id cY = Y ∧ p_distance cY = 1 ∧ p_hits cY = 1%nat ∧
       rank persons = [cX; cY]).
Proof.
  split; [|split; [|split]].
  - intros persons p d k Hp%identity_of_Ok Hk.
    exists (dict_setitem k (fresh k d) persons), (fresh k d).
    rewrite (loop_body_new _ _ _ _ Hp Hk), dict_get_setitem_eq. done.
  - intros persons p d k c Hp%identity_of_Ok Hk.
    exists (dict_setitem k (bump c) persons), (bump c).
    rewrite (loop_body_seen _ _ _ _ _ Hp Hk), dict_get_setitem_eq.
    split; [done|]. split; [done|]. split; [done|]. split; [done|].
    split; [apply binary64_error|].
    intros d'. by apply loop_body_seen.
  - intros hits persons c Hagg Hc.
    pose proof (aggregate_values _ _ _ Hagg Hc) as He.
    destruct (expected_distance _ _ _ He) as (p & d & more & Hh & Hd).
    exists p, d, more. split; [done|]. split; [|done].
    rewrite (expected_hits _ _ _ He), Hh. done.
  - intros slotA slotB slotA2 X Y HA%identity_of_Ok HA2%identity_of_Ok
      HB%identity_of_Ok Hne.
    assert (String.eqb Y X = false) as HYX by (apply String.eqb_neq; congruence).
    assert (String.eqb X Y = false) as HXY by by apply String.eqb_neq.
    exists [(X, bump (fresh X 1)); (Y, fresh Y 1)], (bump (fresh X 1)), (fresh Y 1).
    split.
    { cbn [aggregate].
      rewrite (loop_body_new [] slotA 1 X HA eq_refl). cbn [result_bind dict_setitem].
      rewrite (loop_body_new _ slotB 1 Y HB) by (simpl; by rewrite HYX).
      cbn [result_bind dict_setitem]. rewrite HYX.
      rewrite (loop_body_seen _ slotA2 (12 # 10) X (fresh X 1) HA2)
        by (simpl; by rewrite String.eqb_refl).
      cbn [result_bind dict_setitem]. by rewrite String.eqb_refl. }
    split; [done|]. split; [done|].
    split; [vm_compute; reflexivity|]. split; [done|]. split; [done|].
    split; [vm_compute; reflexivity|]. split; [done|].
    unfold rank, dict_values, sorted. cbn [map snd foldr insert_by].
    replace (Qle_bool (p_distance (bump (fresh X 1))) (p_distance (fresh Y 1)))
      with true by (vm_compute; reflexivity).
    done.
Qed.

(** C2. Ranking. For a vector of 512 numbers, over an index whose hits all
    lie in the slot map, [confirm] returns a result whose performers are
    the first ten of the stable ascending sort of the candidates: at most
    ten of them, in non-decreasing distance, candidates of equal distance in
    first-occurrence order, ten exactly once ten or more identities were
    hit, and no candidate left out is nearer than one kept. *)
Theorem resolve_ranks_ten_nearest vector w :
  length vector = 512%nat →
  Forall (fun h : nat * Q => (h.1 < length ANNOY_INDEX)%nat) (ann_hits vector) →
  ∃ r w' persons ranking,
    confirm vector w = (Ok r, w') ∧
    aggregate [] (ann_hits vector) = Ok persons ∧
    map p_id (dict_values persons) = identities (ann_hits vector) ∧
    ranking ≡ₚ dict_values persons ∧
    StronglySorted by_distance ranking ∧
    stable_wrt (dict_values persons) ranking ∧
    r_performers r = take 10 ranking ∧
    (length (r_performers r) ≤ 10)%nat ∧
    length (r_performers r) = 10 `min` length (identities (ann_hits vector)) ∧
    StronglySorted by_distance (r_performers r) ∧
    Forall (fun c' => Forall (fun c => by_distance c c') (r_performers r))
      (drop 10 ranking).
Proof.
  intros Hlen Hin.
  destruct (aggregate_in_range [] _ Hin) as [persons Hagg].
  destruct (rank_sublist persons) as (ranking & Hrank & Hperm & Hsort & Hstable).
  eexists _, _, persons, ranking.
  rewrite (confirm_eq _ _ Hlen), (lookup_performer_eq _ _ Hlen), Hagg.
  split; [done|]. split; [done|]. cbn [r_performers].
  split; [by apply aggregate_ids|].
  split; [done|]. split; [done|]. split; [done|]. split; [done|].
  rewrite Hrank. split; [rewrite length_take; lia|].
  split.
  { rewrite length_take, Hperm, <- (aggregate_ids _ _ Hagg), length_map. done. }
  split.
  { apply (StronglySorted_app_1_l _ _ (drop 10 ranking)). by rewrite take_drop. }
  by apply StronglySorted_take_drop.
Qed.

(** C3. A vector whose length is not 512 makes [confirm] raise the 400
    "Invalid vector size" and leaves the world as it was: the index is not
    queried and no request id is drawn. *)
Theorem confirm_rejects_wrong_size vector w :
  length vector ≠ 512%nat →
  confirm vector w = (Raise (HTTPException 400 "Invalid vector size"), w) ∧
  response_status (HTTPException 400 "Invalid vector size") = 400%nat ∧
  index_queries (confirm vector w).2 = index_queries w.
Proof.
  intros Hlen.
  destruct (confirm_rejects_wrong_size_aux vector w Hlen) as [H1 H2].
  by rewrite H2, H1.
Qed.

(** C5. When a hit names a slot outside the slot map, the request raises
    the list's IndexError, which the server answers with a 500; no result
    is returned, whatever the other hits are. *)
Theorem missing_slot_fails_request vector w :
  length vector = 512%nat →
  Exists (fun h : nat * Q => (length ANNOY_INDEX ≤ h.1)%nat) (ann_hits vector) →
  ∃ e, (lookup_performer vector w).1 = Raise e ∧
    (confirm vector w).1 = Raise e ∧
    e = IndexError "list index out of range" ∧
    response_status e = 500%nat.
Proof.
  intros Hlen Hex. exists (IndexError "list index out of range").
  rewrite (confirm_eq _ _ Hlen), (lookup_performer_eq _ _ Hlen).
  by rewrite (aggregate_out_of_range _ _ Hex).
Qed.

End Properties.


Section Results.

Import Py.

Lemma lookup_performer_wrong_length vector w :
  length vector ≠ 512%nat →
  (lookup_performer vector w).1 = Raise (IndexError "Vector has wrong length").
Proof.
  intros Hlen%Nat.eqb_neq.
  unfold lookup_performer, bind, uuid4, get_nns_by_vector.
  cbn [f index]. unfold vector_size. by rewrite Hlen.
Qed.

Lemma lookup_performer_Ok vector w r :
  (lookup_performer vector w).1 = Ok r →
  ∃ persons, aggregate [] (ann_hits vector) = Ok persons ∧
    r_performers r = rank persons.
Proof.
  destruct (decide (length vector = 512%nat)) as [Hlen|Hlen].
  - rewrite (lookup_performer_eq _ _ Hlen). cbn [fst].
    destruct (aggregate [] (ann_hits vector)) as [persons|]; [|done].
    intros [= <-]. by exists persons.
  - by rewrite (lookup_performer_wrong_length _ _ Hlen).
Qed.

Lemma confirm_Ok vector w r :
  (confirm vector w).1 = Ok r → (lookup_performer vector w).1 = Ok r.
Proof.
  unfold confirm. by destruct (negb (length vector =? 512)%nat).
Qed.

(** C7. The identity key of a slot in the map is the part of its entry
    before the first separator: it holds no separator, it is the whole entry
    when the entry has none, and otherwise the entry is the key, a separator
    and a remainder; whatever follows the separator is dropped. *)
Theorem identity_key_is_prefix p entry :
  ANNOY_INDEX !! p = Some entry →
  ∃ k, identity_of p = Ok k ∧
    k = before_first "=" entry ∧
    occurs "=" k = false ∧
    (occurs "=" entry = false → k = entry) ∧
    (occurs "=" entry = true → ∃ rest, entry = k +:+ String "=" rest) ∧
    (∀ k' rest, occurs "=" k' = false → entry = k' +:+ String "=" rest → k = k').
Proof.
  intros Hp. exists (before_first "=" entry).
  split; [by rewrite identity_of_owner; unfold owner; rewrite Hp|].
  split; [done|].
  split; [apply before_first_no_sep|].
  split; [apply before_first_whole|].
  split; [apply before_first_split|].
  intros k' rest Hk' ->. by apply before_first_unique.
Qed.

(** C9. Every candidate [lookup_performer] returns, and so every candidate
    [confirm] returns, carries in [hits] the number of hits of the query
    whose slot resolves to the candidate's identity key. *)
Theorem hits_field_counts_hits vector w r :
  (lookup_performer vector w).1 = Ok r ∨ (confirm vector w).1 = Ok r →
  ∀ c, c ∈ r_performers r →
    p_hits c = length (hits_of (p_id c) (ann_hits vector)) ∧ (1 ≤ p_hits c)%nat.
Proof.
  intros H c Hc.
  assert ((lookup_performer vector w).1 = Ok r) as Hr
    by (destruct H; [done|by apply confirm_Ok]).
  destruct (lookup_performer_Ok _ _ _ Hr) as (persons & Hagg & Hrank).
  rewrite Hrank in Hc. apply rank_elem_of in Hc.
  pose proof (aggregate_values _ _ _ Hagg Hc) as He.
  rewrite (expected_hits _ _ _ He).
  destruct (expected_distance _ _ _ He) as (p & d & more & -> & _).
  simpl. split; [done|lia].
Qed.

(** C10. The identity keys of the performers of a result are pairwise
    distinct. *)
Theorem performers_ids_distinct vector w r :
  (lookup_performer vector w).1 = Ok r ∨ (confirm vector w).1 = Ok r →
  NoDup (map p_id (r_performers r)).
Proof.
  intros H.
  assert ((lookup_performer vector w).1 = Ok r) as Hr
    by (destruct H; [done|by apply confirm_Ok]).
  destruct (lookup_performer_Ok _ _ _ Hr) as (persons & Hagg & ->).
  by eapply rank_NoDup.
Qed.

(** What the two handlers make of an identity without metadata: the
    dictionary of [lookup_performer] has no name and no image, and the
    response model of [/] fills in the defaults. *)
Lemma no_metadata_no_name vector w r c :
  (lookup_performer vector w).1 = Ok r → c ∈ r_performers r →
  PERFORMER_DB !! p_id c = None →
  p_name c = None ∧ p_image c = None ∧
  perf_name (Performer_validate c) = "N/A" ∧
  perf_image (Performer_validate c) = "N/A" ∧
  perf_distance (Performer_validate c) = p_distance c.
Proof.
  intros Hr Hc Hdb.
  destruct (lookup_performer_Ok _ _ _ Hr) as (persons & Hagg & Hrank).
  rewrite Hrank in Hc. apply rank_elem_of in Hc.
  pose proof (aggregate_values _ _ _ Hagg Hc) as He.
  destruct (expected_name _ _ _ He) as [Hn Hi].
  rewrite Hdb in Hn, Hi. unfold Performer_validate. simpl.
  by rewrite Hn, Hi.
Qed.

End Results.


(** ** Further properties of the loop *)

Section Loop.

Import Py.

Lemma total_hits_setitem_new k v (d : dict person) :
  dict_get k d = None → total_hits (dict_setitem k v d) = (total_hits d + p_hits v)%nat.
Proof.
  unfold total_hits, dict_values.
  induction d as [|[k' v'] d IH]; simpl; [lia|].
  destruct (String.eqb k k'); [done|]. intros H. simpl. rewrite (IH H). lia.
Qed.

Lemma total_hits_setitem_old k v c (d : dict person) :
  dict_get k d = Some c →
  (total_hits (dict_setitem k v d) + p_hits c = total_hits d + p_hits v)%nat.
Proof.
  unfold total_hits, dict_values.
  induction d as [|[k' v'] d IH]; simpl; [done|].
  destruct (String.eqb k k').
  - intros [= ->]. simpl. lia.
  - intros H. simpl. specialize (IH H). lia.
Qed.

Lemma loop_body_cases persons p d persons' :
  loop_body persons (p, d) = Ok persons' →
  ∃ k, owner p = Some k ∧
    ((∃ c, dict_get k persons = Some c ∧
           persons' = dict_setitem k (bump c) persons) ∨
     (dict_get k persons = None ∧
      persons' = dict_setitem k (fresh k d) persons)).
Proof.
  intros H. destruct (owner p) as [k|] eqn:Hp;
    [|by rewrite loop_body_out_of_range in H].
  exists k. split; [done|].
  destruct (dict_get k persons) as [c|] eqn:Hk.
  - rewrite (loop_body_seen _ _ _ _ _ Hp Hk) in H. injection H as <-.
    left. by exists c.
  - rewrite (loop_body_new _ _ _ _ Hp Hk) in H. injection H as <-. by right.
Qed.

Lemma loop_body_total_hits persons h persons' :
  loop_body persons h = Ok persons' → total_hits persons' = S (total_hits persons).
Proof.
  destruct h as [p d].
  intros (k & _ & [(c & Hk & ->)|[Hk ->]])%loop_body_cases.
  - pose proof (total_hits_setitem_old k (bump c) c persons Hk) as H.
    simpl in H. lia.
  - rewrite (total_hits_setitem_new _ _ _ Hk). simpl. lia.
Qed.

Lemma aggregate_total_hits persons hits persons' :
  aggregate persons hits = Ok persons' →
  total_hits persons' = (total_hits persons + length hits)%nat.
Proof.
  revert persons. induction hits as [|h hits IH]; intros persons; cbn [aggregate].
  - intros [= <-]. simpl. lia.
  - destruct (loop_body persons h) as [persons1|] eqn:E; [|done].
    cbn [result_bind]. intros H%IH.
    rewrite H, (loop_body_total_hits _ _ _ E). simpl. lia.
Qed.

Lemma sum_list_Permutation (l1 l2 : list nat) :
  l1 ≡ₚ l2 → sum_list l1 = sum_list l2.
Proof. induction 1; simpl; lia. Qed.

Lemma sum_list_take_le n (l : list nat) : (sum_list (take n l) ≤ sum_list l)%nat.
Proof.
  revert n. induction l as [|x l IH]; intros [|n]; simpl; try lia.
  specialize (IH n). lia.
Qed.

Lemma rank_total_hits persons :
  (sum_list (map p_hits (rank persons)) ≤ total_hits persons)%nat.
Proof.
  unfold rank, total_hits.
  change (map p_hits (take 10 ?l)) with (p_hits <$> take 10 l).
  rewrite fmap_take.
  etransitivity; [apply sum_list_take_le|].
  apply Nat.eq_le_incl, sum_list_Permutation, fmap_Permutation, sorted_Permutation.
Qed.

(** What a turn of the loop does to a candidate that is already there: it
    stays, with its id, name and image, and either is left alone or gains
    one hit and has a half subtracted from its distance. *)
Lemma loop_body_keeps persons h persons' k c :
  loop_body persons h = Ok persons' → dict_get k persons = Some c →
  ∃ c' n, dict_get k persons' = Some c' ∧
    p_id c' = p_id c ∧ p_name c' = p_name c ∧ p_image c' = p_image c ∧
    p_hits c' = (p_hits c + n)%nat ∧
    p_distance c' = Nat.iter n decrement (p_distance c).
Proof.
  destruct h as [p d].
  intros (k0 & _ & [(c0 & Hk0 & ->)|[Hk0 ->]])%loop_body_cases Hk.
  - destruct (decide (k0 = k)) as [->|Hne].
    + rewrite Hk in Hk0. injection Hk0 as <-.
      exists (bump c), 1%nat. rewrite dict_get_setitem_eq. done.
    + exists c, 0%nat. rewrite dict_get_setitem_ne by done.
      split; [done|]. split; [done|]. split; [done|]. split; [done|].
      split; [lia|done].
  - assert (k0 ≠ k) as Hne by congruence.
    exists c, 0%nat. rewrite dict_get_setitem_ne by done.
    split; [done|]. split; [done|]. split; [done|]. split; [done|].
    split; [lia|done].
Qed.

End Loop.


Section LoopProperties.

Import Py.

Lemma rank_hits_pos hits persons c :
  aggregate [] hits = Ok persons → c ∈ rank persons → (1 ≤ p_hits c)%nat.
Proof.
  intros Hagg Hc%rank_elem_of.
  pose proof (aggregate_values _ _ _ Hagg Hc) as He.
  rewrite (expected_hits _ _ _ He).
  destruct (expected_distance _ _ _ He) as (p & d & more & -> & _). simpl. lia.
Qed.

Lemma length_le_sum_list {A} (g : A → nat) (l : list A) :
  Forall (fun x => (1 ≤ g x)%nat) l → (length l ≤ sum_list (map g l))%nat.
Proof. induction 1; simpl; lia. Qed.

(** X1. Every hit is counted once: after the loop the hit counts of the
    candidates add up to the number of hits, so the hit counts of the
    performers returned add up to at most that. *)
Theorem hits_add_up hits persons :
  aggregate [] hits = Ok persons →
  total_hits persons = length hits ∧
  (sum_list (map p_hits (rank persons)) ≤ length hits)%nat.
Proof.
  intros Hagg. pose proof (aggregate_total_hits _ _ _ Hagg) as H.
  change (total_hits []) with 0%nat in H. simpl in H.
  split; [done|]. rewrite <- H. apply rank_total_hits.
Qed.

(** X2. A result has no more performers than the index gave hits; and
    when the index gives no hit to a vector of 512 numbers, the request
    succeeds: it returns the id drawn and an empty list of performers. *)
Theorem performers_no_more_than_hits vector w :
  (∀ r, (lookup_performer vector w).1 = Ok r ∨ (confirm vector w).1 = Ok r →
     (length (r_performers r) ≤ length (ann_hits vector))%nat) ∧
  (length vector = 512%nat → ann_hits vector = [] →
     confirm vector w =
       (Ok {| r_id := uuid_source w (uuid_drawn w); r_performers := [] |},
        after_query vector w) ∧
     lookup_performer vector w =
       (Ok {| r_id := uuid_source w (uuid_drawn w); r_performers := [] |},
        after_query vector w)).
Proof.
  split.
  - intros r H.
    assert ((lookup_performer vector w).1 = Ok r) as Hr
      by (destruct H; [done|by apply confirm_Ok]).
    destruct (lookup_performer_Ok _ _ _ Hr) as (persons & Hagg & ->).
    etransitivity; [apply (length_le_sum_list p_hits)|].
    + apply Forall_forall. intros c Hc. by eapply rank_hits_pos.
    + pose proof (aggregate_total_hits _ _ _ Hagg) as Ht.
      change (total_hits []) with 0%nat in Ht. simpl in Ht. rewrite <- Ht.
      apply rank_total_hits.
  - intros Hlen Hnil.
    rewrite (confirm_eq _ _ Hlen), (lookup_performer_eq _ _ Hlen), Hnil.
    done.
Qed.

(** X3. A candidate that was there before some hits is still there after
    them, with the same id, name and image; its hits have not gone down,
    its distance is the old one after one float subtraction of a half per
    hit gained, and so, the old one being a float, is not above it. *)
Theorem candidate_only_improves persons hits persons' k c :
  aggregate persons hits = Ok persons' → dict_get k persons = Some c →
  ∃ c', dict_get k persons' = Some c' ∧
    p_id c' = p_id c ∧ p_name c' = p_name c ∧ p_image c' = p_image c ∧
    (p_hits c ≤ p_hits c')%nat ∧
    p_distance c' = Nat.iter (p_hits c' - p_hits c) decrement (p_distance c) ∧
    (binary64 (p_distance c) == p_distance c → p_distance c' <= p_distance c).
Proof.
  intros Hagg Hk.
  assert (∃ c' n, dict_get k persons' = Some c' ∧
            p_id c' = p_id c ∧ p_name c' = p_name c ∧ p_image c' = p_image c ∧
            p_hits c' = (p_hits c + n)%nat ∧
            p_distance c' = Nat.iter n decrement (p_distance c))
    as (c' & n & Hk' & Hid & Hn & Hi & Hh & Hd).
  { revert persons c Hagg Hk.
    induction hits as [|h hits IH]; intros persons c; cbn [aggregate].
    - intros [= <-] Hk. exists c, 0%nat.
      split; [done|]. split; [done|]. split; [done|]. split; [done|].
      split; [lia|done].
    - destruct (loop_body persons h) as [persons1|] eqn:E; [|done].
      cbn [result_bind]. intros Hagg Hk.
      destruct (loop_body_keeps _ _ _ _ _ E Hk)
        as (c1 & n1 & Hk1 & Hid1 & Hn1 & Hi1 & Hh1 & Hd1).
      destruct (IH _ _ Hagg Hk1) as (c' & n & Hk' & Hid & Hn & Hi & Hh & Hd).
      exists c', (n + n1)%nat.
      split; [done|]. split; [congruence|]. split; [congruence|].
      split; [congruence|]. split; [lia|].
      by rewrite Nat.iter_add, <- Hd1. }
  exists c'. split; [done|]. split; [done|]. split; [done|]. split; [done|].
  split; [lia|].
  replace (p_hits c' - p_hits c)%nat with n by lia.
  split; [done|]. intros Hfloat. rewrite Hd.
  by apply iter_decrement_le.
Qed.

(** X4. A candidate whose identity has metadata carries the name and the
    image of the metadata, in the dictionary and in the [Performer] made of
    it. *)
Theorem metadata_is_attached vector w r c md :
  (lookup_performer vector w).1 = Ok r ∨ (confirm vector w).1 = Ok r →
  c ∈ r_performers r → PERFORMER_DB !! p_id c = Some md →
  p_name c = Some (md_name md) ∧ p_image c = Some (md_image md) ∧
  perf_name (Performer_validate c) = md_name md ∧
  perf_image (Performer_validate c) = md_image md.
Proof.
  intros H Hc Hdb.
  assert ((lookup_performer vector w).1 = Ok r) as Hr
    by (destruct H; [done|by apply confirm_Ok]).
  destruct (lookup_performer_Ok _ _ _ Hr) as (persons & Hagg & Hrank).
  rewrite Hrank in Hc. apply rank_elem_of in Hc.
  pose proof (aggregate_values _ _ _ Hagg Hc) as He.
  destruct (expected_name _ _ _ He) as [Hn Hi].
  rewrite Hdb in Hn, Hi. unfold Performer_validate. simpl.
  by rewrite Hn, Hi.
Qed.

(** X5. The performers are identities that were hit: the id of each is
    what [identity_of] gives for the slot of some hit. When ten identities
    or fewer were hit, none is left out: the ids of the performers are the
    identities hit, in some order. *)
Theorem performers_are_the_identities_hit vector w r :
  (lookup_performer vector w).1 = Ok r ∨ (confirm vector w).1 = Ok r →
  (∀ c, c ∈ r_performers r →
     ∃ p d, (p, d) ∈ ann_hits vector ∧ identity_of p = Ok (p_id c)) ∧
  ((length (identities (ann_hits vector)) ≤ 10)%nat →
     map p_id (r_performers r) ≡ₚ identities (ann_hits vector)) ∧
  ((length (identities (ann_hits vector)) ≤ 10)%nat →
     ∀ p d, (p, d) ∈ ann_hits vector →
       ∃ c, c ∈ r_performers r ∧ identity_of p = Ok (p_id c)).
Proof.
  intros H.
  assert ((lookup_performer vector w).1 = Ok r) as Hr
    by (destruct H; [done|by apply confirm_Ok]).
  destruct (lookup_performer_Ok _ _ _ Hr) as (persons & Hagg & ->).
  assert (∀ c, c ∈ rank persons →
            ∃ p d, (p, d) ∈ ann_hits vector ∧ identity_of p = Ok (p_id c))
    as Hsound.
  { intros c Hc%rank_elem_of.
    pose proof (aggregate_values _ _ _ Hagg Hc) as He.
    destruct (expected_distance _ _ _ He) as (p & d & more & Hh & _).
    assert (In (p, d) (hits_of (p_id c) (ann_hits vector)))
      as [Hin Hp]%filter_In by (rewrite Hh; by left).
    exists p, d. split; [by apply list_elem_of_In|].
    unfold is_hit_of in Hp. simpl in Hp.
    destruct (identity_of p) as [k'|]; [|done].
    by apply String.eqb_eq in Hp as ->. }
  assert ((length (identities (ann_hits vector)) ≤ 10)%nat →
          map p_id (rank persons) ≡ₚ identities (ann_hits vector)) as Hperm.
  { intros Hlen. rewrite <- (aggregate_ids _ _ Hagg) in Hlen |- *.
    rewrite length_map in Hlen. unfold rank.
    rewrite take_ge by (by rewrite sorted_length).
    change (p_id <$> sorted p_distance (dict_values persons)
              ≡ₚ p_id <$> dict_values persons).
    by rewrite sorted_Permutation. }
  split; [done|]. split; [done|].
  intros Hlen p d Hin.
  destruct (aggregate_spec _ _ Hagg) as [Hget Hkeys].
  destruct (owner p) as [k|] eqn:Hp.
  - assert (k ∈ map p_id (rank persons)) as Hk.
    { rewrite (Hperm Hlen). unfold identities.
      apply first_occ_elem_of, list_elem_of_omap.
      exists (p, d). split; [done|]. simpl. by rewrite key_of_owner. }
    apply list_elem_of_fmap in Hk as (c & -> & Hc).
    exists c. split; [done|]. by apply identity_of_Ok.
  - exfalso. apply owner_None in Hp.
    assert (aggregate [] (ann_hits vector)
              = Raise (IndexError "list index out of range")) as Hbad.
    { apply aggregate_out_of_range, Exists_exists. by exists (p, d). }
    congruence.
Qed.

End LoopProperties.


(** ** Rounding and the bounds of a stored distance *)

Section Rounding.

Import Py.

Lemma round2_mono x y : x <= y → round2 x <= round2 y.
Proof.
  intros H. unfold round2. apply binary64_mono.
  unfold Qle. cbn [Qnum Qden]. apply Z.mul_le_mono_nonneg_r; [done|].
  apply round_half_even_mono. lra.
Qed.

Lemma round2_nonneg x : 0 <= x → 0 <= round2 x.
Proof.
  intros H. unfold round2. apply binary64_nonneg.
  unfold Qle. cbn [Qnum Qden]. rewrite Z.mul_1_r, Z.mul_0_l.
  apply round_half_even_ge_Z. change (inject_Z 0) with 0. lra.
Qed.

(** X7. When no raw distance is negative, a candidate with [n] hits has a
    distance of at least [-(n - 1) / 2]: one hit alone never gives a
    negative distance, and no distance is below [-(N - 1) / 2] for [N] hits. *)
Theorem adjusted_distance_lower_bound hits persons c :
  Forall (fun h : nat * Q => 0 <= h.2) hits →
  aggregate [] hits = Ok persons → c ∈ dict_values persons →
  - (inject_Z (Z.of_nat (p_hits c - 1)) * (1 # 2)) <= p_distance c ∧
  (p_hits c = 1%nat → 0 <= p_distance c) ∧
  - (inject_Z (Z.of_nat (length hits - 1)) * (1 # 2)) <= p_distance c.
Proof.
  intros Hpos Hagg Hc. pose proof (aggregate_values _ _ _ Hagg Hc) as He.
  pose proof (expected_hits _ _ _ He) as Hh.
  destruct (expected_distance _ _ _ He) as (p & d & more & Hof & Hd).
  rewrite Hof in Hh. simpl in Hh.
  assert (0 <= d) as Hd0.
  { assert (In (p, d) (hits_of (p_id c) hits)) as [Hin _]%filter_In
      by (rewrite Hof; by left).
    rewrite Forall_forall in Hpos. by apply (Hpos (p, d)), list_elem_of_In. }
  pose proof (round2_nonneg d Hd0) as Hr.
  assert (length more < length hits)%nat as Hlen.
  { pose proof (filter_length_le (is_hit_of (p_id c)) hits) as Hle.
    fold (hits_of (p_id c) hits) in Hle. rewrite Hof in Hle. simpl in Hle. lia. }
  replace (p_hits c - 1)%nat with (length more) by lia.
  assert (- (inject_Z (Z.of_nat (length more)) * (1 # 2)) <= p_distance c) as Hlow.
  { rewrite Hd. by apply iter_decrement_lower. }
  split; [done|]. split.
  - intros H1. assert (length more = 0%nat) as H0 by lia.
    eapply Qle_trans; [|exact Hlow]. rewrite H0. by vm_compute.
  - eapply Qle_trans; [|exact Hlow].
    assert (inject_Z (Z.of_nat (length more)) <= inject_Z (Z.of_nat (length hits - 1)))
      as Hle by (rewrite <- Zle_Qle; lia).
    lra.
Qed.

End Rounding.


(** ** Hits of pairwise distinct identities *)

Section DistinctIdentities.

Import Py.

Lemma dict_setitem_new_app {V} k (v : V) d :
  dict_get k d = None → dict_setitem k v d = d ++ [(k, v)].
Proof.
  induction d as [|[k' v'] d IH]; simpl; [done|].
  destruct (String.eqb k k'); [done|]. intros H. by rewrite IH.
Qed.

Lemma aggregate_fresh_run persons hits persons' :
  aggregate persons hits = Ok persons' →
  NoDup (omap (fun h : nat * Q => key_of h.1) hits) →
  (∀ k, k ∈ omap (fun h : nat * Q => key_of h.1) hits → dict_get k persons = None) →
  ∃ new, persons' = persons ++ new ∧ Forall2 made_by hits (dict_values new).
Proof.
  revert persons. induction hits as [|[p d] hits IH]; intros persons; cbn [aggregate].
  - intros [= <-] _ _. exists []. by rewrite app_nil_r.
  - destruct (loop_body persons (p, d)) as [persons1|] eqn:E; [|done].
    cbn [result_bind]. intros Hagg Hnd Hfree.
    apply loop_body_cases in E as (k & Hp & Hcase).
    simpl in Hnd, Hfree. rewrite key_of_owner, Hp in Hnd, Hfree.
    apply NoDup_cons in Hnd as [Hk Hnd].
    assert (dict_get k persons = None) as Hnone
      by apply Hfree, list_elem_of_here.
    destruct Hcase as [(c & Hc & _)|[_ ->]]; [congruence|].
    rewrite (dict_setitem_new_app _ _ _ Hnone) in Hagg.
    destruct (IH _ Hagg Hnd) as (new & -> & Hnew).
    { intros k' Hk'. apply dict_get_None_keys. unfold dict_keys.
      rewrite map_app, elem_of_app. simpl. intros [Hin|Hin].
      - revert Hin. apply dict_get_None_keys, Hfree. by apply list_elem_of_further.
      - apply list_elem_of_singleton in Hin as ->. done. }
    exists ((k, fresh k d) :: new). split; [by rewrite <- app_assoc|].
    constructor; [|done]. split; [by apply identity_of_Ok|done].
Qed.

Lemma made_by_from d hits cands :
  Forall2 made_by hits cands → Forall (fun h : nat * Q => d <= h.2) hits →
  Forall (fun c => round2 d <= p_distance c) cands.
Proof.
  induction 1 as [|h c hits cands [_ Hc] _ IH]; intros Hd; [constructor|].
  apply Forall_cons in Hd as [Hh Hd]. constructor; [|by apply IH].
  rewrite Hc. simpl. by apply round2_mono.
Qed.

Lemma made_by_sorted hits cands :
  Forall2 made_by hits cands → StronglySorted Qle (map snd hits) →
  StronglySorted by_distance cands.
Proof.
  induction 1 as [|h c hits cands [_ Hc] Hrest IH]; intros Hs; [constructor|].
  simpl in Hs. apply StronglySorted_inv in Hs as [Hs Hh].
  constructor; [by apply IH|].
  assert (Forall (fun h' : nat * Q => h.2 <= h'.2) hits) as Hh'.
  { clear -Hh. induction hits as [|h' hits IHh]; [constructor|].
    simpl in Hh. apply Forall_cons in Hh as [H1 H2].
    constructor; [done|by apply IHh]. }
  pose proof (made_by_from _ _ _ Hrest Hh') as Hall.
  eapply Forall_impl; [exact Hall|]. intros c' Hc'.
  unfold by_distance, le_by. rewrite Hc at 1. exact Hc'.
Qed.

(** X8. When the hits come nearest first and no two of them are of the
    same identity, the loop makes one candidate per hit, with the rounded
    distance of the hit and one hit, and the ranking changes nothing: the
    performers are the candidates of the first ten hits, in the order of
    the index. *)
Theorem distinct_identities_keep_index_order hits persons :
  aggregate [] hits = Ok persons →
  NoDup (omap (fun h : nat * Q => key_of h.1) hits) →
  StronglySorted Qle (map snd hits) →
  Forall2 (fun (h : nat * Q) c =>
             identity_of h.1 = Ok (p_id c) ∧
             p_distance c = round2 h.2 ∧ p_hits c = 1%nat)
    hits (dict_values persons) ∧
  rank persons = take 10 (dict_values persons).
Proof.
  intros Hagg Hnd Hs.
  destruct (aggregate_fresh_run _ _ _ Hagg Hnd) as (new & -> & Hnew); [done|].
  simpl. split.
  - eapply Forall2_impl; [exact Hnew|].
    intros h c [Hid Hc]. split; [done|]. by rewrite Hc.
  - unfold rank. f_equal. symmetry.
    apply sorted_unique; [|done].
    by eapply made_by_sorted.
Qed.

End DistinctIdentities.


(** ** The effects of a request and the handler of uploads *)

Section Handlers.

Import Py.

(** X9. A request with 512 numbers draws one request id and puts one
    query, of its own vector, to the index, whether it returns a result or
    raises on a slot outside the map; a result carries the id drawn. *)
Theorem request_draws_one_id_and_queries_once vector w :
  length vector = 512%nat →
  (confirm vector w).2 = after_query vector w ∧
  (lookup_performer vector w).2 = after_query vector w ∧
  uuid_drawn (confirm vector w).2 = S (uuid_drawn w) ∧
  index_queries (confirm vector w).2 = vector :: index_queries w ∧
  (∀ r, (confirm vector w).1 = Ok r → r_id r = uuid_source w (uuid_drawn w)).
Proof.
  intros Hlen. rewrite (confirm_eq _ _ Hlen), (lookup_performer_eq _ _ Hlen).
  cbn [fst snd]. repeat split.
  intros r. destruct (aggregate [] (ann_hits vector)); [|done].
  by intros [= <-].
Qed.



Lemma aggregate_raises persons hits e :
  aggregate persons hits = Raise e → e = IndexError "list index out of range".
Proof.
  revert persons. induction hits as [|[p d] hits IH]; intros persons;
    cbn [aggregate]; [done|].
  destruct (loop_body persons (p, d)) as [persons1|e1] eqn:E1;
    cbn [result_bind]; [apply IH|].
  intros [= ->]. destruct (owner p) as [k|] eqn:Hp.
  - destruct (dict_get k persons) as [c|] eqn:Hk.
    + by rewrite (loop_body_seen _ _ _ _ _ Hp Hk) in E1.
    + by rewrite (loop_body_new _ _ _ _ Hp Hk) in E1.
  - rewrite (loop_body_out_of_range _ _ _ Hp) in E1. by injection E1 as <-.
Qed.

Lemma lookup_performer_raises vector w e :
  (lookup_performer vector w).1 = Raise e → ∃ msg, e = IndexError msg.
Proof.
  destruct (decide (length vector = 512%nat)) as [Hlen|Hlen].
  - rewrite (lookup_performer_eq _ _ Hlen). cbn [fst].
    destruct (aggregate [] (ann_hits vector)) as [|e'] eqn:Eagg; [done|].
    intros [= <-]. apply aggregate_raises in Eagg as ->. by eexists.
  - rewrite (lookup_performer_wrong_length _ _ Hlen). intros [= <-]. by eexists.
Qed.

Context {Image ndarray : Type}.
Context (Image_open : string → option Image).
Context (Image_mode : Image → string).
Context (Image_convert : Image → string → Image).
Context (np_array : Image → ndarray).
Context (preprocess_face : ndarray → option ndarray).
Context (normalize_input : ndarray → option ndarray).
Context (model_predict : ndarray → list Q).

Local Abbreviation handler :=
  (recognise Image ndarray Image_open Image_mode Image_convert np_array
     preprocess_face normalize_input model_predict).

Local Abbreviation as_rgb := (as_rgb Image Image_mode Image_convert).


Lemma recognise_face_raises face w e :
  (recognise_face face w).1 = Raise e → ∃ msg, e = IndexError msg.
Proof.
  unfold recognise_face, bind, ret.
  destruct (lookup_performer face w) as [[r|e'] w'] eqn:El; cbn [fst]; [done|].
  intros [= <-]. apply (lookup_performer_raises face w). by rewrite El.
Qed.

(** X11. The handler of uploads answers with the 400 "Invalid image file"
    exactly when the name of the file has an accepted ending and the decoder
    cannot open its content; the world is then left as it was: no request
    id is drawn and the index is not queried. *)
Theorem upload_undecodable_image file w :
  ((handler file w).1 = Raise (HTTPException 400 "Invalid image file") ↔
   str_endswith_any (filename file) allowed_suffixes = true ∧
   Image_open (file_content file) = None) ∧
  ((handler file w).1 = Raise (HTTPException 400 "Invalid image file") →
   (handler file w).2 = w).
Proof.
  unfold recognise.
  destruct (str_endswith_any (filename file) allowed_suffixes); cbn [negb];
    [|split; [split; [done|by intros [? _]]|done]].
  destruct (Image_open (file_content file)) as [image|];
    [|split; [split; done|done]].
  destruct (match preprocess_face _ with Some _ => _ | None => _ end) as [img|].
  - split; [split; [|by intros [_ ?]]|];
      by intros [msg Hm]%recognise_face_raises.
  - split; [split; [done|by intros [_ ?]]|done].
Qed.

(** X12. The handler of uploads answers with the 409 "No face detected"
    exactly when the file has an accepted ending, decodes, and the detection
    or the normalisation raises its ValueError on the image (converted to
    RGB when its mode is not RGB); the world is then left as it was. *)
Theorem upload_without_face file w :
  ((handler file w).1 = Raise (HTTPException 409 "No face detected") ↔
   str_endswith_any (filename file) allowed_suffixes = true ∧
   ∃ image, Image_open (file_content file) = Some image ∧
     (preprocess_face (np_array (as_rgb image)) = None ∨
      ∃ img, preprocess_face (np_array (as_rgb image)) = Some img ∧
             normalize_input img = None)) ∧
  ((handler file w).1 = Raise (HTTPException 409 "No face detected") →
   (handler file w).2 = w).
Proof.
  unfold recognise.
  destruct (str_endswith_any (filename file) allowed_suffixes); cbn [negb];
    [|split; [split; [done|by intros [? _]]|done]].
  destruct (Image_open (file_content file)) as [image|];
    [|split; [split; [done|by intros [_ (? & ? & _)]]|done]].
  fold (as_rgb image).
  destruct (preprocess_face (np_array (as_rgb image))) as [img|] eqn:Ep.
  - destruct (normalize_input img) as [img'|] eqn:En.
    + split; [split|].
      * by intros [msg Hm]%recognise_face_raises.
      * intros [_ (image0 & [= <-] & [Hn|(img0 & Hp & Hn)])]; [congruence|].
        rewrite Ep in Hp. injection Hp as <-. congruence.
      * by intros [msg Hm]%recognise_face_raises.
    + split; [split; [|done]|done].
      intros _. split; [done|]. exists image. split; [done|].
      right. by exists img.
  - split; [split; [|done]|done].
    intros _. split; [done|]. exists image. split; [done|]. by left.
Qed.

Lemma upload_Ok file w ps :
  (handler file w).1 = Ok ps →
  ∃ face r, (lookup_performer face w).1 = Ok r ∧ ps = PerformerSearch_validate r.
Proof.
  unfold recognise.
  destruct (negb _); [done|].
  destruct (Image_open _) as [image|]; [|done].
  destruct (match preprocess_face _ with Some _ => _ | None => _ end) as [img|];
    [|done].
  unfold recognise_face, bind, ret.
  destruct (lookup_performer (model_predict img) w) as [[r|e] w'] eqn:El;
    cbn [fst]; [|done].
  intros [= <-]. exists (model_predict img), r. by rewrite El.
Qed.

Lemma Performer_validate_sorted l :
  StronglySorted by_distance l →
  StronglySorted (le_by perf_distance) (map Performer_validate l).
Proof.
  induction 1 as [|c l Hs IH Hc]; [constructor|].
  change (StronglySorted (le_by perf_distance)
            (Performer_validate c :: map Performer_validate l)).
  constructor; [exact IH|].
  change (Forall (le_by perf_distance (Performer_validate c))
            (Performer_validate <$> l)).
  apply Forall_fmap. eapply Forall_impl; [exact Hc|].
  intros c' Hc'. exact Hc'.
Qed.

(** X13. Every response of the handler of uploads has at most ten
    performers, in non-decreasing distance, of pairwise distinct ids, each
    with a name and an image: those of the metadata of its id or, without
    metadata, "N/A". *)
Theorem upload_response_is_ranked file w ps :
  (handler file w).1 = Ok ps →
  (length (ps_performers ps) ≤ 10)%nat ∧
  StronglySorted (le_by perf_distance) (ps_performers ps) ∧
  NoDup (map perf_id (ps_performers ps)) ∧
  ∀ c, c ∈ ps_performers ps →
    perf_name c = default "N/A" (md_name <$> PERFORMER_DB !! perf_id c) ∧
    perf_image c = default "N/A" (md_image <$> PERFORMER_DB !! perf_id c).
Proof.
  intros (face & r & Hr & ->)%upload_Ok.
  destruct (lookup_performer_Ok _ _ _ Hr) as (persons & Hagg & Hrank).
  unfold PerformerSearch_validate. cbn [ps_performers]. rewrite Hrank.
  split; [unfold rank; rewrite length_map, length_take; lia|].
  split.
  { assert (StronglySorted by_distance (rank persons)) as Hs.
    { unfold rank.
      apply (StronglySorted_app_1_l _ _
               (drop 10 (sorted p_distance (dict_values persons)))).
      rewrite take_drop. apply sorted_StronglySorted. }
    by apply Performer_validate_sorted. }
  split.
  { rewrite map_map. simpl. by eapply rank_NoDup. }
  intros c (c0 & -> & Hc0)%list_elem_of_fmap.
  apply rank_elem_of in Hc0.
  pose proof (aggregate_values _ _ _ Hagg Hc0) as He.
  destruct (expected_name _ _ _ He) as [Hn Hi].
  unfold Performer_validate. cbn [perf_name perf_image perf_id].
  by rewrite Hn, Hi.
Qed.

End Handlers.

End Server.

(** ** The program on the small gallery *)

Example demo_search :
  (confirm demo_face_db demo_index demo_db demo_vector demo_world).1 = Ok demo_result.
Proof. vm_compute. reflexivity. Qed.

(** The floats of the model are those of the code: rounding 0.125 to two
    decimals gives the float 0.12, which is below 0.12; forty-nine halves
    off the float 0.01 leave the float -24.490000000000002, not -24.49. *)
Example round2_eighth :
  Py.round2 (1 # 8) = Py.binary64 (12 # 100) ∧
  Py.round2 (1 # 8) < 12 # 100 ∧
  Py.round2 (1 # 8) < (1 # 8) - (1 # 200).
Proof. by vm_compute. Qed.

Example forty_nine_halves :
  Nat.iter 49 decrement (Py.binary64 (1 # 100))
    = Py.binary64 (-24490000000000002 # 1000000000000000) ∧
  Nat.iter 49 decrement (Py.binary64 (1 # 100)) < - (2449 # 100).
Proof. by vm_compute. Qed.

(** With Y at 0.2 and two hits of X, at 0.7 and 0.9, the float 0.7 - 0.5 is
    below the float 0.2, and X comes first. *)
Example close_search :
  match (confirm close_face_db demo_index demo_db demo_vector demo_world).1 with
  | Ok r => map (fun c => (p_id c, p_distance c)) (r_performers r)
  | Raise _ => []
  end
  = [("X", Py.binary64 (19999999999999996 # 100000000000000000));
     ("Y", Py.binary64 (2 # 10))].
Proof. vm_compute. reflexivity. Qed.

(** Were the uuid source to give the same token twice, two calls would
    return the same id. *)
Example stuck_ids :
  let '(r1, w1) := confirm demo_face_db demo_index demo_db demo_vector stuck_world in
  let '(r2, w2) := confirm demo_face_db demo_index demo_db demo_vector w1 in
  (r1, r2) = (Ok {| r_id := "same"; r_performers := r_performers demo_result |},
              Ok {| r_id := "same"; r_performers := r_performers demo_result |}).
Proof. vm_compute. reflexivity. Qed.

Example wide_search_ids :
  (fun r => match r with
            | Ok r => map p_id (r_performers r)
            | Raise _ => []
            end)
    (confirm wide_face_db wide_index ∅ demo_vector demo_world).1
  = ["o"; "n"; "m"; "l"; "k"; "j"; "i"; "h"; "g"; "f"].
Proof. vm_compute. reflexivity. Qed.

(** C8. Two hits on the photos of one identity, the nearer at 0.3, leave
    that identity with the distance 0.3 - 0.5, the float -0.2: the adjusted
    distance of a returned candidate can be below zero. *)
Theorem adjusted_distance_goes_negative :
  ∃ r c,
    (confirm near_face_db demo_index demo_db demo_vector demo_world).1 = Ok r ∧
    c ∈ r_performers r ∧
    p_id c = "X" ∧ p_hits c = 2%nat ∧
    p_distance c = Py.binary64 (-1 # 5) ∧ p_distance c < 0.
Proof.
  eexists _, _. split; [vm_compute; reflexivity|].
  split; [apply list_elem_of_here|].
  split; [reflexivity|]. split; [reflexivity|].
  split; [vm_compute; reflexivity|]. by vm_compute.
Qed.

(** C4. On the small gallery, where Y has no metadata: the candidate of Y
    that [confirm] returns has no name and no image, while the response of
    [/] gives the same candidate the name and image "N/A". *)
Theorem search_leaves_name_unset :
  demo_db !! "Y" = None ∧
  (∃ r c,
     (confirm demo_face_db demo_index demo_db demo_vector demo_world).1 = Ok r ∧
     c ∈ r_performers r ∧ p_id c = "Y" ∧
     p_name c = None ∧ p_image c = None ∧ p_distance c = 1) ∧
  (∃ ps c,
     (recognise_face demo_face_db demo_index demo_db demo_vector demo_world).1 = Ok ps ∧
     c ∈ ps_performers ps ∧ perf_id c = "Y" ∧
     perf_name c = "N/A" ∧ perf_image c = "N/A" ∧ perf_distance c = 1).
Proof.
  split; [by vm_compute|]. split.
  - eexists _, _. split; [vm_compute; reflexivity|].
    split; [apply list_elem_of_further, list_elem_of_here|]. by vm_compute.
  - eexists _, _. split; [vm_compute; reflexivity|].
    split; [apply list_elem_of_further, list_elem_of_here|]. by vm_compute.
Qed.

(** ** Two calls, and what a result depends on *)




(** ** The theorems at work on the small gallery *)

Lemma aggregation_seeds_then_subtracts_witness :
  (∃ persons' c,
     loop_body demo_index demo_db [] (1%nat, 1) = Ok persons' ∧
     Py.dict_get "Y" persons' = Some c ∧
     p_distance c = Py.round2 1 ∧ p_hits c = 1%nat) ∧
  (∃ persons' c',
     loop_body demo_index demo_db [("X", demo_x_once)] (2%nat, 12 # 10)
       = Ok persons' ∧
     Py.dict_get "X" persons' = Some c' ∧
     p_hits c' = (p_hits demo_x_once + 1)%nat ∧
     p_distance c' = Py.binary64 (p_distance demo_x_once - (1 # 2)) ∧
     Qabs (p_distance c' - (p_distance demo_x_once - (1 # 2))) <=
       (1 # 2) / inject_Z Py.subnormal_scale
       + Qabs (p_distance demo_x_once - (1 # 2)) / inject_Z (2 ^ 53) ∧
     ∀ d', loop_body demo_index demo_db [("X", demo_x_once)] (2%nat, d')
             = Ok persons') ∧
  (∃ p d more,
     hits_of demo_index (p_id demo_x) demo_hits = (p, d) :: more ∧
     p_hits demo_x = S (length more) ∧
     p_distance demo_x = Nat.iter (length more) decrement (Py.round2 d)) ∧
  (∃ persons cX cY,
     aggregate demo_index demo_db [] [(0%nat, 1); (1%nat, 1); (2%nat, 12 # 10)]
       = Ok persons ∧
     Py.dict_values persons = [cX; cY] ∧
     p_id cX = "X" ∧ p_distance cX = 1 # 2 ∧ p_hits cX = 2%nat ∧
     p_id cY = "Y" ∧ p_distance cY = 1 ∧ p_hits cY = 1%nat ∧
     rank persons = [cX; cY]).
Proof.
  destruct (aggregation_seeds_then_subtracts demo_index demo_db)
    as (Hfirst & Hagain & Hclosed & Hxy).
  split; [apply (Hfirst [] 1%nat 1 "Y"); reflexivity|].
  split; [apply (Hagain [("X", demo_x_once)] 2%nat (12 # 10) "X");
          reflexivity|].
  split.
  - apply (Hclosed demo_hits demo_persons demo_x).
    + vm_compute. reflexivity.
    + apply list_elem_of_here.
  - apply (Hxy 0%nat 1%nat 2%nat "X" "Y");
      [reflexivity|reflexivity|reflexivity|discriminate].
Defined.

(** A later hit does not always take an exact half off: with X stored at
    the float 0.01, the next hit of X stores the float nearest to
    0.01 - 0.5, which is not 0.01 - 0.5. *)
Lemma repeated_hit_is_not_exactly_half :
  ¬ (∀ persons p d k c,
       identity_of demo_index p = Ok k → Py.dict_get k persons = Some c →
       ∃ persons' c', loop_body demo_index demo_db persons (p, d) = Ok persons' ∧
         Py.dict_get k persons' = Some c' ∧
         p_hits c' = (p_hits c + 1)%nat ∧
         p_distance c' == p_distance c - (1 # 2)).
Proof.
  intros H.
  destruct (H [("X", fresh demo_db "X" (Py.binary64 (1 # 100)))]
              2%nat (4 # 10) "X" (fresh demo_db "X" (Py.binary64 (1 # 100)))
              eq_refl eq_refl)
    as (persons' & c' & Hbody & Hget & _ & Hd).
  vm_compute in Hbody. injection Hbody as <-.
  vm_compute in Hget. injection Hget as <-.
  vm_compute in Hd. discriminate.
Qed.

Lemma resolve_ranks_ten_nearest_witness :
  length demo_vector = 512%nat ∧
  Forall (fun h : nat * Q => (h.1 < length wide_index)%nat)
    (ann_hits wide_face_db demo_vector) ∧
  ∃ r w' persons ranking,
    confirm wide_face_db wide_index ∅ demo_vector demo_world = (Ok r, w') ∧
    aggregate wide_index ∅ [] (ann_hits wide_face_db demo_vector) = Ok persons ∧
    map p_id (Py.dict_values persons)
      = identities wide_index (ann_hits wide_face_db demo_vector) ∧
    ranking ≡ₚ Py.dict_values persons ∧
    StronglySorted by_distance ranking ∧
    stable_wrt (Py.dict_values persons) ranking ∧
    r_performers r = take 10 ranking ∧
    (length (r_performers r) ≤ 10)%nat ∧
    length (r_performers r)
      = 10 `min` length (identities wide_index (ann_hits wide_face_db demo_vector)) ∧
    StronglySorted by_distance (r_performers r) ∧
    Forall (fun c' => Forall (fun c => by_distance c c') (r_performers r))
      (drop 10 ranking).
Proof.
  assert (length demo_vector = 512%nat) as Hlen by reflexivity.
  assert (Forall (fun h : nat * Q => (h.1 < length wide_index)%nat)
            (ann_hits wide_face_db demo_vector)) as Hin
    by (vm_compute; repeat constructor).
  split; [exact Hlen|]. split; [exact Hin|].
  exact (resolve_ranks_ten_nearest wide_face_db wide_index ∅
           demo_vector demo_world Hlen Hin).
Defined.

Lemma confirm_rejects_wrong_size_witness :
  length [1; 2; 3] ≠ 512%nat ∧
  confirm demo_face_db demo_index demo_db [1; 2; 3] demo_world
    = (Raise (HTTPException 400 "Invalid vector size"), demo_world) ∧
  response_status (HTTPException 400 "Invalid vector size") = 400%nat ∧
  index_queries (confirm demo_face_db demo_index demo_db [1; 2; 3] demo_world).2
    = index_queries demo_world.
Proof.
  assert (length [1; 2; 3] ≠ 512%nat) as Hlen by discriminate.
  split; [exact Hlen|].
  exact (confirm_rejects_wrong_size demo_face_db demo_index demo_db
           [1; 2; 3] demo_world Hlen).
Defined.

Lemma missing_slot_fails_request_witness :
  length demo_vector = 512%nat ∧
  Exists (fun h : nat * Q => (length demo_index ≤ h.1)%nat)
    (ann_hits stray_face_db demo_vector) ∧
  ∃ e,
    (lookup_performer stray_face_db demo_index demo_db demo_vector demo_world).1
      = Raise e ∧
    (confirm stray_face_db demo_index demo_db demo_vector demo_world).1 = Raise e ∧
    e = IndexError "list index out of range" ∧
    response_status e = 500%nat.
Proof.
  assert (length demo_vector = 512%nat) as Hlen by reflexivity.
  assert (Exists (fun h : nat * Q => (length demo_index ≤ h.1)%nat)
            (ann_hits stray_face_db demo_vector)) as Hex
    by (apply Exists_cons_tl, Exists_cons_hd; vm_compute; repeat constructor).
  split; [exact Hlen|]. split; [exact Hex|].
  exact (missing_slot_fails_request stray_face_db demo_index demo_db
           demo_vector demo_world Hlen Hex).
Defined.


Lemma identity_key_is_prefix_witness :
  demo_index !! 0%nat = Some "X=a.jpg" ∧
  ∃ k, identity_of demo_index 0 = Ok k ∧
    k = before_first "=" "X=a.jpg" ∧
    occurs "=" k = false ∧
    (occurs "=" "X=a.jpg" = false → k = "X=a.jpg") ∧
    (occurs "=" "X=a.jpg" = true → ∃ rest, "X=a.jpg" = k +:+ String "=" rest) ∧
    (∀ k' rest, occurs "=" k' = false →
       "X=a.jpg" = k' +:+ String "=" rest → k = k').
Proof.
  split; [reflexivity|].
  exact (identity_key_is_prefix demo_index 0 "X=a.jpg" eq_refl).
Defined.

Lemma hits_field_counts_hits_witness :
  (lookup_performer demo_face_db demo_index demo_db demo_vector demo_world).1
    = Ok demo_result ∧
  ∀ c, c ∈ r_performers demo_result →
    p_hits c = length (hits_of demo_index (p_id c) (ann_hits demo_face_db demo_vector)) ∧
    (1 ≤ p_hits c)%nat.
Proof.
  assert ((lookup_performer demo_face_db demo_index demo_db demo_vector demo_world).1
            = Ok demo_result) as Hr by (vm_compute; reflexivity).
  split; [exact Hr|].
  exact (hits_field_counts_hits demo_face_db demo_index demo_db
           demo_vector demo_world demo_result (or_introl Hr)).
Defined.

Lemma performers_ids_distinct_witness :
  (confirm demo_face_db demo_index demo_db demo_vector demo_world).1
    = Ok demo_result ∧
  NoDup (map p_id (r_performers demo_result)).
Proof.
  assert ((confirm demo_face_db demo_index demo_db demo_vector demo_world).1
            = Ok demo_result) as Hr by (vm_compute; reflexivity).
  split; [exact Hr|].
  exact (performers_ids_distinct demo_face_db demo_index demo_db
           demo_vector demo_world demo_result (or_intror Hr)).
Defined.
(** ** The further properties at work on the small gallery *)

Lemma hits_add_up_witness :
  aggregate demo_index demo_db [] demo_hits = Ok demo_persons ∧
  total_hits demo_persons = length demo_hits ∧
  (sum_list (map p_hits (rank demo_persons)) ≤ length demo_hits)%nat.
Proof.
  assert (aggregate demo_index demo_db [] demo_hits = Ok demo_persons) as H
    by (vm_compute; reflexivity).
  split; [exact H|]. exact (hits_add_up demo_index demo_db _ _ H).
Defined.

Lemma performers_no_more_than_hits_witness :
  ((confirm demo_face_db demo_index demo_db demo_vector demo_world).1
     = Ok demo_result ∧
   (length (r_performers demo_result)
      ≤ length (ann_hits demo_face_db demo_vector))%nat) ∧
  (length demo_vector = 512%nat ∧ ann_hits silent_face_db demo_vector = []) ∧
  confirm silent_face_db demo_index demo_db demo_vector demo_world =
    (Ok {| r_id := "A"; r_performers := [] |},
     after_query demo_vector demo_world) ∧
  lookup_performer silent_face_db demo_index demo_db demo_vector demo_world =
    (Ok {| r_id := "A"; r_performers := [] |},
     after_query demo_vector demo_world).
Proof.
  assert ((confirm demo_face_db demo_index demo_db demo_vector demo_world).1
            = Ok demo_result) as Hr by (vm_compute; reflexivity).
  assert (length demo_vector = 512%nat) as Hlen by reflexivity.
  assert (ann_hits silent_face_db demo_vector = []) as Hnil by reflexivity.
  split.
  - split; [exact Hr|].
    exact (proj1 (performers_no_more_than_hits demo_face_db demo_index demo_db
                    demo_vector demo_world) demo_result (or_intror Hr)).
  - split; [by split|].
    exact (proj2 (performers_no_more_than_hits silent_face_db demo_index demo_db
                    demo_vector demo_world) Hlen Hnil).
Defined.

Lemma candidate_only_improves_witness :
  aggregate demo_index demo_db [("X", demo_x_once)] [(2%nat, 12 # 10); (1%nat, 1)]
    = Ok demo_persons ∧
  Py.dict_get "X" [("X", demo_x_once)] = Some demo_x_once ∧
  Py.binary64 (p_distance demo_x_once) == p_distance demo_x_once ∧
  ∃ c', Py.dict_get "X" demo_persons = Some c' ∧
    p_id c' = p_id demo_x_once ∧ p_name c' = p_name demo_x_once ∧
    p_image c' = p_image demo_x_once ∧
    (p_hits demo_x_once ≤ p_hits c')%nat ∧
    p_distance c' =
      Nat.iter (p_hits c' - p_hits demo_x_once) decrement (p_distance demo_x_once) ∧
    p_distance c' <= p_distance demo_x_once.
Proof.
  assert (aggregate demo_index demo_db [("X", demo_x_once)]
            [(2%nat, 12 # 10); (1%nat, 1)] = Ok demo_persons) as H
    by (vm_compute; reflexivity).
  assert (Py.binary64 (p_distance demo_x_once) == p_distance demo_x_once)
    as Hfloat by (vm_compute; reflexivity).
  split; [exact H|]. split; [reflexivity|]. split; [exact Hfloat|].
  destruct (candidate_only_improves demo_index demo_db _ _ _ "X" demo_x_once
              H eq_refl)
    as (c' & H1 & H2 & H3 & H4 & H5 & H6 & H7).
  exists c'. split; [exact H1|]. split; [exact H2|]. split; [exact H3|].
  split; [exact H4|]. split; [exact H5|]. split; [exact H6|exact (H7 Hfloat)].
Defined.

Lemma metadata_is_attached_witness :
  (confirm demo_face_db demo_index demo_db demo_vector demo_world).1
    = Ok demo_result ∧
  demo_x ∈ r_performers demo_result ∧
  demo_db !! p_id demo_x = Some (mk_metadata "Xena" "http://img/x") ∧
  p_name demo_x = Some "Xena" ∧ p_image demo_x = Some "http://img/x" ∧
  perf_name (Performer_validate demo_x) = "Xena" ∧
  perf_image (Performer_validate demo_x) = "http://img/x".
Proof.
  assert ((confirm demo_face_db demo_index demo_db demo_vector demo_world).1
            = Ok demo_result) as Hr by (vm_compute; reflexivity).
  assert (demo_x ∈ r_performers demo_result) as Hc by apply list_elem_of_here.
  assert (demo_db !! p_id demo_x = Some (mk_metadata "Xena" "http://img/x"))
    as Hdb by (vm_compute; reflexivity).
  split; [exact Hr|]. split; [exact Hc|]. split; [exact Hdb|].
  exact (metadata_is_attached demo_face_db demo_index demo_db demo_vector
           demo_world demo_result demo_x _ (or_intror Hr) Hc Hdb).
Defined.

Lemma performers_are_the_identities_hit_witness :
  (confirm demo_face_db demo_index demo_db demo_vector demo_world).1
    = Ok demo_result ∧
  (length (identities demo_index (ann_hits demo_face_db demo_vector)) ≤ 10)%nat ∧
  (∀ c, c ∈ r_performers demo_result →
     ∃ p d, (p, d) ∈ ann_hits demo_face_db demo_vector ∧
       identity_of demo_index p = Ok (p_id c)) ∧
  map p_id (r_performers demo_result)
    ≡ₚ identities demo_index (ann_hits demo_face_db demo_vector) ∧
  (∀ p d, (p, d) ∈ ann_hits demo_face_db demo_vector →
     ∃ c, c ∈ r_performers demo_result ∧ identity_of demo_index p = Ok (p_id c)).
Proof.
  assert ((confirm demo_face_db demo_index demo_db demo_vector demo_world).1
            = Ok demo_result) as Hr by (vm_compute; reflexivity).
  assert (length (identities demo_index (ann_hits demo_face_db demo_vector)) ≤ 10)%nat
    as Hlen by (vm_compute; repeat constructor).
  split; [exact Hr|]. split; [exact Hlen|].
  destruct (performers_are_the_identities_hit demo_face_db demo_index demo_db
              demo_vector demo_world demo_result (or_intror Hr))
    as (H1 & H2 & H3).
  split; [exact H1|]. split; [exact (H2 Hlen)|exact (H3 Hlen)].
Defined.

Lemma adjusted_distance_lower_bound_witness :
  Forall (fun h : nat * Q => 0 <= h.2) demo_hits ∧
  aggregate demo_index demo_db [] demo_hits = Ok demo_persons ∧
  demo_x ∈ Py.dict_values demo_persons ∧
  - (inject_Z (Z.of_nat (p_hits demo_x - 1)) * (1 # 2)) <= p_distance demo_x ∧
  (p_hits demo_x = 1%nat → 0 <= p_distance demo_x) ∧
  - (inject_Z (Z.of_nat (length demo_hits - 1)) * (1 # 2)) <= p_distance demo_x.
Proof.
  assert (Forall (fun h : nat * Q => 0 <= h.2) demo_hits) as Hpos
    by (repeat constructor; discriminate).
  assert (aggregate demo_index demo_db [] demo_hits = Ok demo_persons) as H
    by (vm_compute; reflexivity).
  assert (demo_x ∈ Py.dict_values demo_persons) as Hc by apply list_elem_of_here.
  split; [exact Hpos|]. split; [exact H|]. split; [exact Hc|].
  exact (adjusted_distance_lower_bound demo_index demo_db _ _ _ Hpos H Hc).
Defined.

Lemma distinct_identities_keep_index_order_witness :
  aggregate demo_index demo_db [] apart_hits = Ok apart_persons ∧
  NoDup (omap (fun h : nat * Q => key_of demo_index h.1) apart_hits) ∧
  StronglySorted Qle (map snd apart_hits) ∧
  Forall2 (fun (h : nat * Q) c =>
             identity_of demo_index h.1 = Ok (p_id c) ∧
             p_distance c = Py.round2 h.2 ∧ p_hits c = 1%nat)
    apart_hits (Py.dict_values apart_persons) ∧
  rank apart_persons = take 10 (Py.dict_values apart_persons).
Proof.
  assert (aggregate demo_index demo_db [] apart_hits = Ok apart_persons) as H
    by (vm_compute; reflexivity).
  assert (NoDup (omap (fun h : nat * Q => key_of demo_index h.1) apart_hits))
    as Hnd.
  { change (NoDup ["Y"; "Z"]). apply NoDup_cons. split.
    - intros Hin%list_elem_of_singleton. discriminate.
    - apply NoDup_singleton. }
  assert (StronglySorted Qle (map snd apart_hits)) as Hs
    by (repeat constructor; discriminate).
  split; [exact H|]. split; [exact Hnd|]. split; [exact Hs|].
  exact (distinct_identities_keep_index_order demo_index demo_db _ _ H Hnd Hs).
Defined.

Lemma request_draws_one_id_and_queries_once_witness :
  length demo_vector = 512%nat ∧
  (confirm stray_face_db demo_index demo_db demo_vector demo_world).2
    = after_query demo_vector demo_world ∧
  (lookup_performer stray_face_db demo_index demo_db demo_vector demo_world).2
    = after_query demo_vector demo_world ∧
  uuid_drawn (confirm stray_face_db demo_index demo_db demo_vector demo_world).2
    = S (uuid_drawn demo_world) ∧
  index_queries (confirm stray_face_db demo_index demo_db demo_vector demo_world).2
    = demo_vector :: index_queries demo_world ∧
  (∀ r, (confirm stray_face_db demo_index demo_db demo_vector demo_world).1 = Ok r →
     r_id r = uuid_source demo_world (uuid_drawn demo_world)).
Proof.
  assert (length demo_vector = 512%nat) as Hlen by reflexivity.
  split; [exact Hlen|].
  exact (request_draws_one_id_and_queries_once stray_face_db demo_index demo_db
           demo_vector demo_world Hlen).
Defined.

Local Abbreviation toy_recognise :=
  (recognise demo_face_db demo_index demo_db string string toy_open toy_mode
     toy_convert toy_array toy_detect toy_normalize toy_predict).


Lemma upload_undecodable_image_witness :
  (Py.str_endswith_any "photo.png" allowed_suffixes = true ∧ toy_open "" = None) ∧
  (toy_recognise (mk_UploadFile "photo.png" "") demo_world).1
    = Raise (HTTPException 400 "Invalid image file") ∧
  (toy_recognise (mk_UploadFile "photo.png" "") demo_world).2 = demo_world.
Proof.
  assert (Py.str_endswith_any "photo.png" allowed_suffixes = true ∧
          toy_open "" = None) as Hc by (split; reflexivity).
  destruct (upload_undecodable_image demo_face_db demo_index demo_db
              toy_open toy_mode toy_convert toy_array toy_detect toy_normalize
              toy_predict (mk_UploadFile "photo.png" "") demo_world)
    as [Hiff Hworld].
  split; [exact Hc|].
  split; [exact (proj2 Hiff Hc)|exact (Hworld (proj2 Hiff Hc))].
Defined.

Lemma upload_without_face_witness :
  (Py.str_endswith_any "photo.jpeg" allowed_suffixes = true ∧
   ∃ image, toy_open "blank" = Some image ∧
     (toy_detect (toy_array (as_rgb string toy_mode toy_convert image)) = None ∨
      ∃ img, toy_detect (toy_array (as_rgb string toy_mode toy_convert image))
               = Some img ∧ toy_normalize img = None)) ∧
  (toy_recognise (mk_UploadFile "photo.jpeg" "blank") demo_world).1
    = Raise (HTTPException 409 "No face detected") ∧
  (toy_recognise (mk_UploadFile "photo.jpeg" "blank") demo_world).2 = demo_world.
Proof.
  assert (Py.str_endswith_any "photo.jpeg" allowed_suffixes = true ∧
          ∃ image, toy_open "blank" = Some image ∧
            (toy_detect (toy_array (as_rgb string toy_mode toy_convert image)) = None ∨
             ∃ img, toy_detect (toy_array (as_rgb string toy_mode toy_convert image))
                      = Some img ∧ toy_normalize img = None)) as Hc.
  { split; [reflexivity|]. exists "blank". split; [reflexivity|]. by left. }
  destruct (upload_without_face demo_face_db demo_index demo_db
              toy_open toy_mode toy_convert toy_array toy_detect toy_normalize
              toy_predict (mk_UploadFile "photo.jpeg" "blank") demo_world)
    as [Hiff Hworld].
  split; [exact Hc|].
  split; [exact (proj2 Hiff Hc)|exact (Hworld (proj2 Hiff Hc))].
Defined.

Lemma upload_response_is_ranked_witness :
  (toy_recognise (mk_UploadFile "photo.jpg" "bytes") demo_world).1
    = Ok demo_response ∧
  (length (ps_performers demo_response) ≤ 10)%nat ∧
  StronglySorted (le_by perf_distance) (ps_performers demo_response) ∧
  NoDup (map perf_id (ps_performers demo_response)) ∧
  ∀ c, c ∈ ps_performers demo_response →
    perf_name c = default "N/A" (md_name <$> demo_db !! perf_id c) ∧
    perf_image c = default "N/A" (md_image <$> demo_db !! perf_id c).
Proof.
  assert ((toy_recognise (mk_UploadFile "photo.jpg" "bytes") demo_world).1
            = Ok demo_response) as H by (vm_compute; reflexivity).
  split; [exact H|].
  exact (upload_response_is_ranked demo_face_db demo_index demo_db
           toy_open toy_mode toy_convert toy_array toy_detect toy_normalize
           toy_predict (mk_UploadFile "photo.jpg" "bytes") demo_world
           demo_response H).
Defined.
